(** * Banded normal-equations assembly (banded_tools/build_banded.pyx)

    A shallow embedding of the three Cython kernels [build_banded],
    [build_banded_2] and [build_banded_3], and the properties of the
    banded matrix they assemble.

    Modelling conventions.
    - A [double] is a real number: every statement is about exact
      arithmetic, floating-point rounding is outside the model.
    - A C [int] / [long] is an integer of [Z]; signed overflow is undefined
      in C, so the statements concern dimensions and parameters whose index
      arithmetic stays inside the machine range: a statement about
      arbitrary inputs carries the hypothesis that the integers the kernel
      computes fit a C [int] ([band_ints_in_range],
      [grouping_ints_in_range], [degree_ints_in_range],
      [window_ints_in_range]).
    - A typed memoryview is a record carrying its shape and its rows.
    - The module is compiled with [boundscheck=False, wraparound=False]:
      an index outside the shape is not trapped by the program and has no
      defined result.  The model reports it as [Fault OutOfBounds].
    - [prange] iterations write disjoint band rows and share no scalar, so
      the loop is modelled by its sequential execution. *)

From Stdlib Require Import ZArith List Lia Reals Lra Permutation.
From stdpp Require Import base list.

Local Open Scope Z_scope.

(** ** Outcomes of a call *)

Inductive error : Type :=
| ValueError    (* numpy refuses a negative dimension *)
| OutOfBounds.  (* access outside the shape of an array *)

Inductive outcome (A : Type) : Type :=
| Done (a : A)
| Fault (e : error).
Arguments Done {A} a.
Arguments Fault {A} e.

#[global] Instance outcome_ret : MRet outcome := fun A a => Done a.
#[global] Instance outcome_bind : MBind outcome :=
  fun A B f x => match x with Done a => f a | Fault e => Fault e end.

(** ** Arrays *)

(** [double[:, ::1]]: a two-dimensional view with its shape. *)
Record ndarray : Type := mk_ndarray {
  shape0 : Z;
  shape1 : Z;
  data : list (list R)
}.

(** The view is consistent: [shape0] rows of [shape1] cells each. *)
Definition wf (m : ndarray) : Prop :=
  Z.of_nat (length (data m)) = shape0 m /\
  Forall (fun r => Z.of_nat (length r) = shape1 m) (data m).

Definition in_shape (m : ndarray) (i j : Z) : bool :=
  (0 <=? i) && (i <? shape0 m) && (0 <=? j) && (j <? shape1 m).

(** [m[i, j]] as an r-value. *)
Definition mget (m : ndarray) (i j : Z) : outcome R :=
  if in_shape m i j then
    match data m !! Z.to_nat i with
    | Some r =>
        match r !! Z.to_nat j with
        | Some x => Done x
        | None => Fault OutOfBounds
        end
    | None => Fault OutOfBounds
    end
  else Fault OutOfBounds.

Definition mset (m : ndarray) (i j : Z) (v : R) : ndarray :=
  {| shape0 := shape0 m;
     shape1 := shape1 m;
     data := alter (fun r => <[Z.to_nat j := v]> r) (Z.to_nat i) (data m) |}.

(** [m[i, j] += v]. *)
Definition madd_at (m : ndarray) (i j : Z) (v : R) : outcome ndarray :=
  x ← mget m i j; mret (mset m i j (x + v)%R).

(** [long[::1]]: a one-dimensional view of integers. *)
Definition vget (l : list Z) (i : Z) : outcome Z :=
  if 0 <=? i then
    match l !! Z.to_nat i with
    | Some x => Done x
    | None => Fault OutOfBounds
    end
  else Fault OutOfBounds.

(** [np.zeros((r, c))]. *)
Definition np_zeros (r c : Z) : outcome ndarray :=
  if (r <? 0) || (c <? 0) then Fault ValueError
  else Done {| shape0 := r; shape1 := c;
               data := replicate (Z.to_nat r) (replicate (Z.to_nat c) 0%R) |}.

(** ** Loops *)

Fixpoint foldM {S : Type} (body : Z -> S -> outcome S) (l : list Z) (s : S)
  : outcome S :=
  match l with
  | [] => Done s
  | i :: l' => s' ← body i s; foldM body l' s'
  end.

(** [for i in range(lo, hi): s = body(i, s)]. *)
Definition for_range {S : Type} (lo hi : Z) (s : S)
    (body : Z -> S -> outcome S) : outcome S :=
  foldM body (seqZ lo (hi - lo)) s.

(** ** The three assembly kernels *)

Definition build_banded (base_DIF temporal : ndarray) (p : Z)
  : outcome ndarray :=
  let n_t := shape0 temporal in
  let n_coeffs := shape0 base_DIF in
  let bandw := (p + 1) * n_coeffs + 1 in
  let n_data := shape1 base_DIF in
  banded ← np_zeros bandw (n_t * n_coeffs);
  for_range 0 bandw banded (fun it banded =>
    let k := bandw - 1 - it in
    for_range 0 (n_t * n_coeffs - it) banded (fun jt banded =>
      let it_t := Z.quot (it + jt) n_coeffs in
      let jt_t := Z.quot jt n_coeffs in
      if p <? Z.abs (it_t - jt_t) then Done banded else
      let it_s := Z.rem (it + jt) n_coeffs in
      let jt_s := Z.rem jt n_coeffs in
      for_range 0 n_data banded (fun kt banded =>
        a ← mget temporal it_t kt;
        b ← mget base_DIF it_s kt;
        c ← mget temporal jt_t kt;
        d ← mget base_DIF jt_s kt;
        madd_at banded k (it + jt) (a * b * c * d)%R))).

Definition build_banded_2 (base_DIF temporal : ndarray) (p : Z)
    (nonzero_inds starts : list Z) : outcome ndarray :=
  let n_t := shape0 temporal in
  let n_coeffs := shape0 base_DIF in
  let bandw := (p + 1) * n_coeffs + 1 in
  banded ← np_zeros bandw (n_t * n_coeffs);
  for_range 0 bandw banded (fun it banded =>
    let k := bandw - it - 1 in
    for_range 0 (n_t * n_coeffs - it) banded (fun jt banded =>
      let it_t := Z.quot (it + jt) n_coeffs in
      let jt_t := Z.quot jt n_coeffs in
      if p <? Z.abs (it_t - jt_t) then Done banded else
      let it_s := Z.rem (it + jt) n_coeffs in
      let jt_s := Z.rem jt n_coeffs in
      let ind := it_t * n_t + jt_t in
      lo ← vget starts ind;
      hi ← vget starts (ind + 1);
      for_range lo hi banded (fun kt banded =>
        o ← vget nonzero_inds kt;
        a ← mget temporal it_t o;
        b ← mget base_DIF it_s o;
        c ← mget temporal jt_t o;
        d ← mget base_DIF jt_s o;
        madd_at banded k (it + jt) (a * b * c * d)%R))).

Definition build_banded_3 (nlefts : list Z) (base_DIF temporal : ndarray)
    (deg : Z) : outcome ndarray :=
  let n_t := shape0 temporal in
  let n_coeffs := shape0 base_DIF in
  let n_data := shape1 base_DIF in
  let bandw := (deg + 1) * n_coeffs in
  banded ← np_zeros bandw (n_t * n_coeffs);
  for_range 0 n_data banded (fun it banded =>
    lo ← vget nlefts it;
    hi ← vget nlefts it;
    for_range (lo - deg) (hi + 1) banded (fun p banded =>
      if n_t <=? p then Done banded else
      hi' ← vget nlefts it;
      for_range p (hi' + 1) banded (fun q banded =>
        if n_t <=? q then Done banded else
        for_range 0 n_coeffs banded (fun j banded =>
          for_range 0 n_coeffs banded (fun i banded =>
            let ind := n_coeffs * (4 + p - q) + j - i - 1 in
            tp ← mget temporal p it;
            tq ← mget temporal q it;
            bi ← mget base_DIF i it;
            bj ← mget base_DIF j it;
            madd_at banded ind (i + q * n_coeffs) (tp * tq * bi * bj)%R))))).

(** A view built from its rows. *)
Definition of_rows (rows : list (list R)) : ndarray :=
  {| shape0 := Z.of_nat (length rows);
     shape1 := match rows with [] => 0 | r :: _ => Z.of_nat (length r) end;
     data := rows |}.


(** ** The nonzero-index grouping read by [build_banded_2] *)

Fixpoint collect (f : Z -> outcome Z) (l : list Z) : outcome (list Z) :=
  match l with
  | [] => Done []
  | i :: l' => x ← f i; xs ← collect f l'; mret (x :: xs)
  end.

(** The observation indices the kernel visits for group [ind]:
    [nonzero_inds[kt]] for [kt] in [range(starts[ind], starts[ind+1])]. *)
Definition group_slice (nonzero_inds starts : list Z) (ind : Z)
  : outcome (list Z) :=
  lo ← vget starts ind;
  hi ← vget starts (ind + 1);
  collect (vget nonzero_inds) (seqZ lo (hi - lo)).

(** ** Reading a cell as a total function *)

Definition mval (m : ndarray) (i j : Z) : R :=
  match mget m i j with
  | Done x => x
  | Fault _ => 0%R
  end.

(** [m'] has the frame of [m]: same shape, still consistent. *)
Definition same_frame (m m' : ndarray) : Prop :=
  wf m' /\ shape0 m' = shape0 m /\ shape1 m' = shape1 m.

(** [m'] is [m] with [x] added to the cell [(k, c)] and nothing else changed. *)
Definition adds_to (m m' : ndarray) (k c : Z) (x : R) : Prop :=
  same_frame m m' /\
  mval m' k c = (mval m k c + x)%R /\
  forall i j, i <> k \/ j <> c -> mval m' i j = mval m i j.

(** Sum of [f] over a list of observation indices. *)
Definition sum_over (l : list Z) (f : Z -> R) : R :=
  fold_right (fun kt acc => (f kt + acc)%R) 0%R l.

(** ** Vocabulary of the properties *)

(** The two outer loops of [build_banded] and [build_banded_2], with the
    innermost accumulation left as a parameter. *)
Definition band_loops (n_t n_coeffs p bandw : Z) (row_of : Z -> Z)
    (inner : Z -> Z -> Z -> Z -> Z -> Z -> ndarray -> outcome ndarray)
  : outcome ndarray :=
  banded ← np_zeros bandw (n_t * n_coeffs);
  for_range 0 bandw banded (fun it banded =>
    for_range 0 (n_t * n_coeffs - it) banded (fun jt banded =>
      let it_t := Z.quot (it + jt) n_coeffs in
      let jt_t := Z.quot jt n_coeffs in
      if p <? Z.abs (it_t - jt_t) then Done banded else
      inner it_t (Z.rem (it + jt) n_coeffs) jt_t (Z.rem jt n_coeffs)
            (row_of it) (it + jt) banded)).

(** What the enumeration stores for the full-matrix entry [(row, col)] when
    the accumulation for a block pair adds [F]. *)
Definition entry_value (n_coeffs p : Z) (F : Z -> Z -> Z -> Z -> R)
    (row col : Z) : R :=
  if p <? Z.abs (col / n_coeffs - row / n_coeffs) then 0%R
  else F (col / n_coeffs) (col mod n_coeffs) (row / n_coeffs) (row mod n_coeffs).

(** The content of the stored cell [(k, c)] of a band with [bandw] rows. *)
Definition cell_value (n_coeffs p bandw : Z) (F : Z -> Z -> Z -> Z -> R)
    (k c : Z) : R :=
  let row := c - (bandw - 1 - k) in
  if row <? 0 then 0%R else entry_value n_coeffs p F row c.

(** State of the band after the offsets below [it] and the columns
    [0 .. jt-1] of offset [it] have been handled. *)
Definition band_inv (n_t n_coeffs p : Z) (F : Z -> Z -> Z -> Z -> R)
    (it jt : Z) (m : ndarray) : Prop :=
  wf m /\ shape0 m = (p + 1) * n_coeffs + 1 /\ shape1 m = n_t * n_coeffs /\
  forall k c, 0 <= k < (p + 1) * n_coeffs + 1 -> 0 <= c < n_t * n_coeffs ->
    mval m k c =
      if ((p + 1) * n_coeffs + 1 - 1 - k <? it)
         || (((p + 1) * n_coeffs + 1 - 1 - k =? it) && (c - it <? jt))
      then cell_value n_coeffs p ((p + 1) * n_coeffs + 1) F k c else 0%R.

(** One observation's contribution to the entry pairing the combined indices
    [(it_t, it_s)] and [(jt_t, jt_s)]. *)
Definition term (base_DIF temporal : ndarray) (it_t it_s jt_t jt_s kt : Z) : R :=
  (mval temporal it_t kt * mval base_DIF it_s kt
   * mval temporal jt_t kt * mval base_DIF jt_s kt)%R.

(** The observation indices [0 .. n_data-1]. *)
Definition observations (base_DIF : ndarray) : list Z := seqZ 0 (shape1 base_DIF).

Definition dense_sum (base_DIF temporal : ndarray) (it_t it_s jt_t jt_s : Z) : R :=
  sum_over (observations base_DIF) (term base_DIF temporal it_t it_s jt_t jt_s).

Definition slice_or_nil (nonzero_inds starts : list Z) (ind : Z) : list Z :=
  match group_slice nonzero_inds starts ind with
  | Done sl => sl
  | Fault _ => []
  end.

Definition indexed_sum (base_DIF temporal : ndarray)
    (nonzero_inds starts : list Z) (it_t it_s jt_t jt_s : Z) : R :=
  sum_over (slice_or_nil nonzero_inds starts (it_t * shape0 temporal + jt_t))
           (term base_DIF temporal it_t it_s jt_t jt_s).

(** The grouping can be read for every block pair the kernel visits, and
    names observations that exist in both basis matrices. *)
Definition grouping_readable (base_DIF temporal : ndarray) (p : Z)
    (nonzero_inds starts : list Z) : Prop :=
  forall it_t jt_t,
    0 <= jt_t -> jt_t <= it_t -> it_t < shape0 temporal -> it_t - jt_t <= p ->
    exists sl,
      group_slice nonzero_inds starts (it_t * shape0 temporal + jt_t) = Done sl /\
      forall o, o ∈ sl -> 0 <= o < shape1 base_DIF /\ o < shape1 temporal.

(** The grouping is exact: the slice of every group [it_t * n_t + jt_t] lists,
    once each, the observations at which both temporal rows are nonzero. *)
Definition grouping_exact (base_DIF temporal : ndarray)
    (nonzero_inds starts : list Z) : Prop :=
  forall it_t jt_t,
    0 <= it_t < shape0 temporal -> 0 <= jt_t < shape0 temporal ->
    exists sl,
      group_slice nonzero_inds starts (it_t * shape0 temporal + jt_t) = Done sl /\
      NoDup sl /\
      forall o, o ∈ sl <->
                (0 <= o < shape1 base_DIF /\
                 mval temporal it_t o <> 0%R /\ mval temporal jt_t o <> 0%R).

(** [m[:, cols]]: the view keeping the listed observation columns. *)
Definition take_columns (m : ndarray) (cols : list Z) : ndarray :=
  {| shape0 := shape0 m;
     shape1 := Z.of_nat (length cols);
     data := map (fun r => map (fun j => nth (Z.to_nat j) r 0%R) cols) (data m) |}.

(** Entrywise sum of two matrices of the same shape. *)
Definition madd (a b : ndarray) : ndarray :=
  {| shape0 := shape0 a;
     shape1 := shape1 a;
     data := zip_with (zip_with Rplus) (data a) (data b) |}.

Definition valid_columns (m : ndarray) (cols : list Z) : Prop :=
  forall c, c ∈ cols -> 0 <= c < shape1 m.

(** Entry [(row, col)] of the full symmetric matrix: the upper triangle is
    read from [banded[bandwidth-1-(col-row), col]], the lower triangle is its
    mirror image, and entries outside the stored band are zero. *)
Definition full_matrix (banded : ndarray) (row col : Z) : R :=
  let lo := Z.min row col in
  let hi := Z.max row col in
  if hi - lo <? shape0 banded
  then mval banded (shape0 banded - 1 - (hi - lo)) hi
  else 0%R.

Definition vec_at (v : list R) (i : Z) : R := nth (Z.to_nat i) v 0%R.

(** [v^T M v] for an [n x n] matrix. *)
Definition quad_form (M : Z -> Z -> R) (n : Z) (v : list R) : R :=
  sum_over (seqZ 0 n) (fun r =>
    sum_over (seqZ 0 n) (fun c => (vec_at v r * M r c * vec_at v c)%R)).

(** The band parameter covers the support of the temporal basis: two
    temporal functions more than [p] blocks apart are never both nonzero at
    the same observation. *)
Definition band_covers_support (temporal : ndarray) (p : Z) : Prop :=
  forall s t kt,
    0 <= s < shape0 temporal -> 0 <= t < shape0 temporal ->
    0 <= kt < shape1 temporal ->
    p < Z.abs (s - t) ->
    (mval temporal s kt * mval temporal t kt)%R = 0%R.

(** Row [r] of the design matrix at observation [kt]. *)
Definition design (base_DIF temporal : ndarray) (r kt : Z) : R :=
  (mval temporal (r / shape0 base_DIF) kt
   * mval base_DIF (r mod shape0 base_DIF) kt)%R.

(** Re-mapping of the element-local convention ([bandwidth] rows, the main
    diagonal in the last row) to the block-offset convention
    ([bandwidth + 1] rows): one empty row on top. *)
Definition to_block_offset (b : ndarray) : ndarray :=
  {| shape0 := shape0 b + 1;
     shape1 := shape1 b;
     data := replicate (Z.to_nat (shape1 b)) 0%R :: data b |}.

(** [nlefts[it]], read as a total function. *)
Definition nleft_at (nlefts : list Z) (it : Z) : Z :=
  match vget nlefts it with
  | Done nl => nl
  | Fault _ => 0
  end.




(** ** Data sets on which the statements are instantiated *)

(** A small data set: two spatial coefficients, two temporal blocks, two
    observations, with an exact nonzero-index grouping. *)
Definition ex_base : ndarray := of_rows [[1; 2]; [3; 1]]%R.
Definition ex_temporal : ndarray := of_rows [[1; 0]; [2; 1]]%R.
Definition ex_nonzero_inds : list Z := [0; 0; 0; 0; 1].
Definition ex_starts : list Z := [0; 1; 2; 3; 5].

(** A temporal matrix with one observation column more than [ex_base]. *)
Definition ex_temporal_wide : ndarray := of_rows [[1; 0; 5]; [2; 1; 7]]%R.

(** A temporal basis of three overlapping functions and one observation. *)
Definition ones_base : ndarray := of_rows [[1]]%R.
Definition ones_temporal : ndarray := of_rows [[1]; [1]; [1]]%R.

(** A temporal basis whose two functions never overlap. *)
Definition split_temporal : ndarray := of_rows [[1; 0]; [0; 2]]%R.

(** One spatial coefficient, four temporal functions, one observation whose
    window of a cubic basis starts left of the first function. *)
Definition lw_base1 : ndarray := of_rows [[1]]%R.
Definition lw_temporal_left : ndarray := of_rows [[1]; [1]; [1]; [0]]%R.

(** Two spatial coefficients, four temporal functions, one observation
    whose cubic window is the whole temporal range. *)
Definition lw_base2 : ndarray := of_rows [[1]; [2]]%R.
Definition lw_temporal4 : ndarray := of_rows [[1]; [1]; [1]; [1]]%R.

(** One spatial coefficient, two temporal functions of a linear basis. *)
Definition lw_temporal2 : ndarray := of_rows [[1]; [1]]%R.

(** A cubic basis of five functions seen at two observations. *)
Definition lw_base_cubic : ndarray := of_rows [[2; 3]]%R.
Definition lw_temporal_cubic : ndarray :=
  of_rows [[1; 0]; [2; 1]; [1; 3]; [1; 1]; [0; 2]]%R.

(** ** Further vocabulary *)

(** The grouping covers the nonzero products: for every block pair the
    kernel visits, the slice lists existing observations, none twice, and
    among them every observation at which both temporal rows are nonzero. *)
Definition grouping_covering (base_DIF temporal : ndarray) (p : Z)
    (nonzero_inds starts : list Z) : Prop :=
  forall it_t jt_t,
    0 <= jt_t -> jt_t <= it_t -> it_t < shape0 temporal -> it_t - jt_t <= p ->
    exists sl,
      group_slice nonzero_inds starts (it_t * shape0 temporal + jt_t) = Done sl /\
      NoDup sl /\
      (forall o, o ∈ sl -> 0 <= o < shape1 base_DIF) /\
      (forall o, 0 <= o < shape1 base_DIF ->
                 mval temporal it_t o <> 0%R -> mval temporal jt_t o <> 0%R ->
                 o ∈ sl).

(** ** The range of the C integers *)

Definition INT_MIN : Z := -2147483648.
Definition INT_MAX : Z := 2147483647.

(** A value a C [int] can hold. *)
Definition int_range (z : Z) : Prop := INT_MIN <= z <= INT_MAX.

(** The C integers that [build_banded] and [build_banded_2] compute from the
    band parameter and the shapes ([n_t], [n_coeffs], [n_data], [p + 1],
    [(p + 1) * n_coeffs], the bandwidth and [n_t * n_coeffs]) do not
    overflow. *)
Definition band_ints_in_range (base_DIF temporal : ndarray) (p : Z) : Prop :=
  int_range (shape0 temporal) /\ int_range (shape0 base_DIF) /\
  int_range (shape1 base_DIF) /\
  int_range p /\ int_range (p + 1) /\
  int_range ((p + 1) * shape0 base_DIF) /\
  int_range ((p + 1) * shape0 base_DIF + 1) /\
  int_range (shape0 temporal * shape0 base_DIF).

(** The group index [it_t * n_t + jt_t] of [build_banded_2] does not
    overflow, and the offsets, which bound the C [int] loop variable [kt],
    fit a C [int]. *)
Definition grouping_ints_in_range (temporal : ndarray) (starts : list Z) : Prop :=
  int_range (shape0 temporal * shape0 temporal) /\
  Forall int_range starts.

(** The C integers that [build_banded_3] computes from the degree and the
    shapes do not overflow. *)
Definition degree_ints_in_range (base_DIF temporal : ndarray) (deg : Z) : Prop :=
  int_range (shape0 temporal) /\ int_range (shape0 base_DIF) /\
  int_range (shape1 base_DIF) /\
  int_range deg /\ int_range (deg + 1) /\
  int_range ((deg + 1) * shape0 base_DIF) /\
  int_range (shape0 temporal * shape0 base_DIF).

(** The bounds [nlefts[it] - deg] and [nlefts[it] + 1] of every window that
    is read fit the C [int] loop variables [p] and [q], and so does every
    step of the
    index arithmetic [n_coeffs * (4 + p - q) + j - i - 1] and
    [i + q * n_coeffs] for the [p], [q], [i] and [j] that the loops of
    [build_banded_3] reach. *)
Definition window_ints_in_range (nlefts : list Z) (base_DIF temporal : ndarray)
    (deg : Z) : Prop :=
  forall it, 0 <= it < shape1 base_DIF -> it < Z.of_nat (length nlefts) ->
    int_range (nleft_at nlefts it - deg) /\
    int_range (nleft_at nlefts it + 1) /\
    forall p q i j,
      nleft_at nlefts it - deg <= p <= nleft_at nlefts it ->
      p < shape0 temporal ->
      p <= q <= nleft_at nlefts it -> q < shape0 temporal ->
      0 <= i < shape0 base_DIF -> 0 <= j < shape0 base_DIF ->
      int_range (4 + p) /\ int_range (4 + p - q) /\
      int_range (shape0 base_DIF * (4 + p - q)) /\
      int_range (shape0 base_DIF * (4 + p - q) + j) /\
      int_range (shape0 base_DIF * (4 + p - q) + j - i) /\
      int_range (shape0 base_DIF * (4 + p - q) + j - i - 1) /\
      int_range (q * shape0 base_DIF) /\
      int_range (i + q * shape0 base_DIF).

(** ** Further data sets *)

(** A temporal matrix with one observation column fewer than [ex_base]. *)
Definition ex_temporal_narrow : ndarray := of_rows [[1]; [2]]%R.

(** Basis matrices without any observation. *)
Definition ex_base_no_obs : ndarray := of_rows [[]; []].
Definition ex_temporal_no_obs : ndarray := of_rows [[]; []].

(** A temporal matrix without any temporal function. *)
Definition ex_temporal_no_rows : ndarray := of_rows [].

(** A grouping of [ex_temporal] that lists more observations than needed,
    in another order, and leaves the unvisited group [(0, 1)] empty. *)
Definition ex_nonzero_inds_wide : list Z := [0; 1; 0; 1; 1; 0].
Definition ex_starts_wide : list Z := [0; 2; 2; 4; 6].

(** Closed range conditions are settled by evaluation. *)
Ltac int_range_tac :=
  unfold band_ints_in_range, degree_ints_in_range, grouping_ints_in_range,
         int_range, INT_MIN, INT_MAX;
  simpl;
  repeat match goal with
         | |- _ /\ _ => split
         | |- Forall _ _ => constructor; cbv beta
         end;
  lia.

(** The range conditions of the windows of closed data: the observation is
    one of finitely many, and what is left is linear arithmetic. *)
Ltac eval_shapes :=
  repeat match goal with
         | |- context [nleft_at ?l ?i] =>
             let v := eval vm_compute in (nleft_at l i) in
             progress change (nleft_at l i) with v
         | |- context [shape0 ?m] =>
             let v := eval vm_compute in (shape0 m) in
             progress change (shape0 m) with v
         end.
Ltac window_leaf_tac :=
  eval_shapes; unfold int_range, INT_MIN, INT_MAX;
  repeat match goal with |- _ /\ _ => split end;
  intros; lia.

(** * Basic facts *)

Section Loops.
Context {S : Type}.
Implicit Types (body : Z -> S -> outcome S) (s : S).

Lemma for_range_empty lo hi s body :
  hi <= lo -> for_range lo hi s body = Done s.
Proof. intros H. unfold for_range. rewrite seqZ_nil by lia. reflexivity. Qed.

Lemma for_range_step lo hi s body :
  lo < hi ->
  for_range lo hi s body = (s' ← body lo s; for_range (lo + 1) hi s' body).
Proof.
  intros H. unfold for_range. rewrite seqZ_cons by lia. simpl.
  replace (Z.pred (hi - lo)) with (hi - (lo + 1)) by lia.
  replace (Z.succ lo) with (lo + 1) by lia. reflexivity.
Qed.

(** Loop invariant rule: every iteration succeeds and re-establishes [P]. *)
Lemma for_range_inv (P : Z -> S -> Prop) lo hi s body :
  lo <= hi ->
  P lo s ->
  (forall i t, lo <= i < hi -> P i t ->
     exists t', body i t = Done t' /\ P (i + 1) t') ->
  exists s', for_range lo hi s body = Done s' /\ P hi s'.
Proof.
  intros Hle. remember (Z.to_nat (hi - lo)) as n eqn:Hn.
  revert lo s Hle Hn. induction n as [|n IH]; intros lo s Hle Hn H0 Hstep.
  - assert (lo = hi) by lia. subst. exists s.
    rewrite for_range_empty by lia. auto.
  - assert (lo < hi) by lia.
    destruct (Hstep lo s ltac:(lia) H0) as (t & Hb & Ht).
    destruct (IH (lo + 1) t ltac:(lia) ltac:(lia) Ht) as (s' & Hr & Hs').
    { intros i u Hi Hu. apply Hstep; [lia | exact Hu]. }
    exists s'. rewrite for_range_step by lia. rewrite Hb. simpl. auto.
Qed.

(** A fault in the first iteration is the outcome of the loop. *)
Lemma for_range_fault_first lo hi s body e :
  lo < hi -> body lo s = Fault e -> for_range lo hi s body = Fault e.
Proof. intros H Hb. rewrite for_range_step by lia. rewrite Hb. reflexivity. Qed.
End Loops.

(** ** Cells of a consistent view *)

Lemma in_shape_true m i j :
  in_shape m i j = true <-> (0 <= i < shape0 m /\ 0 <= j < shape1 m).
Proof. unfold in_shape. rewrite !andb_true_iff. lia. Qed.

Lemma in_shape_false m i j :
  in_shape m i j = false <-> ~ (0 <= i < shape0 m /\ 0 <= j < shape1 m).
Proof. rewrite <- in_shape_true. destruct (in_shape m i j); split; congruence. Qed.

Lemma wf_row m i :
  wf m -> 0 <= i < shape0 m ->
  exists r, data m !! Z.to_nat i = Some r /\ Z.of_nat (length r) = shape1 m.
Proof.
  intros [Hlen Hrows] Hi.
  destruct (lookup_lt_is_Some_2 (data m) (Z.to_nat i)) as [r Hr]; [lia|].
  exists r. split; [exact Hr|].
  rewrite Forall_forall in Hrows. apply Hrows.
  apply list_elem_of_lookup. eauto.
Qed.

Lemma mget_wf m i j :
  wf m -> 0 <= i < shape0 m -> 0 <= j < shape1 m ->
  mget m i j = Done (mval m i j).
Proof.
  intros Hwf Hi Hj. unfold mval, mget.
  rewrite (proj2 (in_shape_true m i j)) by auto.
  destruct (wf_row m i Hwf Hi) as (r & -> & Hlen).
  destruct (lookup_lt_is_Some_2 r (Z.to_nat j)) as [x ->]; [lia|].
  reflexivity.
Qed.

Lemma mget_out m i j :
  ~ (0 <= i < shape0 m /\ 0 <= j < shape1 m) -> mget m i j = Fault OutOfBounds.
Proof.
  intros H. unfold mget. rewrite (proj2 (in_shape_false m i j)) by auto.
  reflexivity.
Qed.

Lemma mval_out m i j :
  ~ (0 <= i < shape0 m /\ 0 <= j < shape1 m) -> mval m i j = 0%R.
Proof. intros H. unfold mval. rewrite mget_out by auto. reflexivity. Qed.

Lemma same_frame_refl m : wf m -> same_frame m m.
Proof. unfold same_frame. auto. Qed.

Lemma same_frame_trans m1 m2 m3 :
  same_frame m1 m2 -> same_frame m2 m3 -> same_frame m1 m3.
Proof. unfold same_frame. intuition congruence. Qed.

Lemma mset_frame m i j v : wf m -> same_frame m (mset m i j v).
Proof.
  intros [Hlen Hrows]. unfold same_frame, wf, mset. simpl.
  rewrite length_alter. repeat split; auto.
  rewrite Forall_forall in *. intros r Hr.
  apply list_elem_of_lookup in Hr. destruct Hr as [n Hn].
  rewrite list_lookup_alter in Hn.
  destruct (decide (Z.to_nat i = n)) as [->|Hne].
  - destruct (data m !! n) as [r0|] eqn:E; simpl in Hn; [|discriminate].
    injection Hn as <-. rewrite length_insert. apply Hrows.
    apply list_elem_of_lookup. eauto.
  - apply Hrows, list_elem_of_lookup. eauto.
Qed.

Lemma mval_mset_eq m i j v :
  wf m -> 0 <= i < shape0 m -> 0 <= j < shape1 m ->
  mval (mset m i j v) i j = v.
Proof.
  intros Hwf Hi Hj. unfold mval, mget.
  rewrite (proj2 (in_shape_true _ i j)) by (simpl; auto).
  destruct (wf_row m i Hwf Hi) as (r & Hr & Hlen). simpl.
  rewrite list_lookup_alter_eq, Hr. simpl.
  rewrite list_lookup_insert_eq by lia. reflexivity.
Qed.

Lemma mval_mset_ne m i j v i' j' :
  0 <= i -> 0 <= j -> i' <> i \/ j' <> j ->
  mval (mset m i j v) i' j' = mval m i' j'.
Proof.
  intros Hi Hj Hne. unfold mval, mget.
  change (in_shape (mset m i j v) i' j') with (in_shape m i' j').
  destruct (in_shape m i' j') eqn:E; [|reflexivity].
  apply in_shape_true in E. simpl.
  rewrite list_lookup_alter.
  destruct (decide (Z.to_nat i = Z.to_nat i')) as [Heq|Hd]; [|reflexivity].
  assert (i = i') by lia. subst i'.
  destruct (data m !! Z.to_nat i) as [r|]; simpl; [|reflexivity].
  rewrite list_lookup_insert_ne by lia. reflexivity.
Qed.

Lemma madd_at_spec m k c v :
  wf m -> 0 <= k < shape0 m -> 0 <= c < shape1 m ->
  exists m', madd_at m k c v = Done m' /\ adds_to m m' k c v.
Proof.
  intros Hwf Hk Hc. exists (mset m k c (mval m k c + v)%R).
  unfold madd_at. rewrite mget_wf by auto. simpl. split; [reflexivity|].
  split; [apply mset_frame; auto|]. split.
  - apply mval_mset_eq; auto.
  - intros i j Hne. apply mval_mset_ne; lia || auto.
Qed.


Lemma np_zeros_spec r c :
  0 <= r -> 0 <= c ->
  exists z, np_zeros r c = Done z /\ wf z /\ shape0 z = r /\ shape1 z = c /\
            forall i j, mval z i j = 0%R.
Proof.
  intros Hr Hc. unfold np_zeros.
  destruct (Z.ltb_spec r 0); [lia|]. destruct (Z.ltb_spec c 0); [lia|]. simpl.
  eexists. split; [reflexivity|]. unfold wf. simpl. repeat split.
  - rewrite length_replicate. lia.
  - apply Forall_forall. intros x Hx.
    apply elem_of_replicate in Hx. destruct Hx as [-> _].
    rewrite length_replicate. lia.
  - intros i j. unfold mval, mget. destruct (in_shape _ i j) eqn:E; [|reflexivity].
    apply in_shape_true in E. simpl in *.
    rewrite lookup_replicate_2 by lia. rewrite lookup_replicate_2 by lia.
    reflexivity.
Qed.

Lemma np_zeros_neg r c : r < 0 \/ c < 0 -> np_zeros r c = Fault ValueError.
Proof.
  intros H. unfold np_zeros.
  destruct (Z.ltb_spec r 0); [reflexivity|].
  destruct (Z.ltb_spec c 0); [reflexivity|lia].
Qed.

(** Two consistent views with the same shape and the same cells are equal. *)
Lemma ndarray_ext m1 m2 :
  wf m1 -> wf m2 -> shape0 m1 = shape0 m2 -> shape1 m1 = shape1 m2 ->
  (forall i j, 0 <= i < shape0 m1 -> 0 <= j < shape1 m1 ->
               mval m1 i j = mval m2 i j) ->
  m1 = m2.
Proof.
  intros W1 W2 H0 H1 Hc.
  destruct m1 as [a1 b1 d1], m2 as [a2 b2 d2]. simpl in *. subst a2 b2.
  f_equal. apply list_eq. intros i.
  destruct W1 as [L1 R1], W2 as [L2 R2]. simpl in *.
  destruct (decide (i < length d1)%nat) as [Hi|Hi].
  - destruct (lookup_lt_is_Some_2 d1 i Hi) as [r1 E1].
    destruct (lookup_lt_is_Some_2 d2 i) as [r2 E2]; [lia|].
    rewrite E1, E2. f_equal. apply list_eq. intros j.
    assert (Hl1 : Z.of_nat (length r1) = b1).
    { rewrite Forall_forall in R1. apply R1, list_elem_of_lookup. eauto. }
    assert (Hl2 : Z.of_nat (length r2) = b1).
    { rewrite Forall_forall in R2. apply R2, list_elem_of_lookup. eauto. }
    destruct (decide (j < length r1)%nat) as [Hj|Hj].
    + specialize (Hc (Z.of_nat i) (Z.of_nat j) ltac:(lia) ltac:(lia)).
      unfold mval, mget in Hc.
      rewrite !(proj2 (in_shape_true _ _ _)) in Hc by (simpl; lia).
      simpl in Hc. rewrite !Nat2Z.id, E1, E2 in Hc.
      destruct (lookup_lt_is_Some_2 r1 j Hj) as [x1 X1].
      destruct (lookup_lt_is_Some_2 r2 j) as [x2 X2]; [lia|].
      rewrite X1, X2 in *. congruence.
    + rewrite !(proj2 (lookup_ge_None _ _)) by lia. reflexivity.
  - rewrite !(proj2 (lookup_ge_None _ _)) by lia. reflexivity.
Qed.

(** ** Accumulating into one cell *)

Lemma adds_to_refl m k c : wf m -> adds_to m m k c 0%R.
Proof.
  intros H. split; [apply same_frame_refl; auto|]. split; [lra|auto].
Qed.

Lemma adds_to_trans m1 m2 m3 k c x y :
  adds_to m1 m2 k c x -> adds_to m2 m3 k c y -> adds_to m1 m3 k c (x + y)%R.
Proof.
  intros (F1 & E1 & O1) (F2 & E2 & O2).
  split; [eapply same_frame_trans; eauto|]. split.
  - rewrite E2, E1. lra.
  - intros i j Hne. rewrite O2, O1; auto.
Qed.

(** A loop whose every iteration is [banded[k, c] += g kt] adds the sum of
    [g] over the iterated indices to that cell. *)
Lemma foldM_accum body (g : Z -> R) l m k c :
  wf m -> 0 <= k < shape0 m -> 0 <= c < shape1 m ->
  (forall kt t, kt ∈ l -> same_frame m t -> body kt t = madd_at t k c (g kt)) ->
  exists m', foldM body l m = Done m' /\ adds_to m m' k c (sum_over l g).
Proof.
  revert m. induction l as [|a l IH]; intros m Hwf Hk Hc Hbody; simpl.
  - exists m. split; [reflexivity|]. apply adds_to_refl; auto.
  - rewrite Hbody; [|left|apply same_frame_refl; auto].
    destruct (madd_at_spec m k c (g a) Hwf Hk Hc) as (m1 & -> & A1). simpl.
    destruct A1 as (F1 & E1 & O1). pose proof F1 as (W1 & S0 & S1).
    destruct (IH m1 W1 ltac:(lia) ltac:(lia)) as (m2 & -> & A2).
    { intros kt t Hin Ft. apply Hbody; [right; auto|].
      eapply same_frame_trans; eauto. }
    exists m2. split; [reflexivity|].
    eapply adds_to_trans; [|exact A2]. split; auto.
Qed.

(** ** Sums over observation lists *)

Lemma sum_over_ext l f g :
  (forall k, k ∈ l -> f k = g k) -> sum_over l f = sum_over l g.
Proof.
  induction l as [|a l IH]; intros H; simpl; [reflexivity|].
  rewrite H by left. rewrite IH; [reflexivity|]. intros k Hk. apply H. right; auto.
Qed.

Lemma sum_over_app l1 l2 f :
  sum_over (l1 ++ l2) f = (sum_over l1 f + sum_over l2 f)%R.
Proof. induction l1 as [|a l IH]; simpl; [lra|]. rewrite IH. lra. Qed.

Lemma sum_over_perm l1 l2 f : l1 ≡ₚ l2 -> sum_over l1 f = sum_over l2 f.
Proof.
  induction 1 as [|x l l' _ IH|x y l|l l' l'' _ IH1 _ IH2]; simpl;
    [reflexivity|rewrite IH; reflexivity|lra|congruence].
Qed.

Lemma sum_over_zero l f : (forall k, k ∈ l -> f k = 0%R) -> sum_over l f = 0%R.
Proof.
  induction l as [|a l IH]; intros H; simpl; [reflexivity|].
  rewrite H by left. rewrite IH; [lra|]. intros k Hk. apply H. right; auto.
Qed.

Lemma sum_over_plus l f g :
  sum_over l (fun k => (f k + g k)%R) = (sum_over l f + sum_over l g)%R.
Proof. induction l as [|a l IH]; simpl; [lra|]. rewrite IH. lra. Qed.

Lemma sum_over_scal l a f :
  sum_over l (fun k => (a * f k)%R) = (a * sum_over l f)%R.
Proof. induction l as [|b l IH]; simpl; [lra|]. rewrite IH. lra. Qed.

Lemma sum_over_swap l1 l2 (f : Z -> Z -> R) :
  sum_over l1 (fun i => sum_over l2 (fun j => f i j)) =
  sum_over l2 (fun j => sum_over l1 (fun i => f i j)).
Proof.
  induction l1 as [|a l IH]; simpl.
  - symmetry. apply sum_over_zero. auto.
  - rewrite IH. rewrite sum_over_plus. reflexivity.
Qed.

Lemma sum_over_nonneg l f : (forall k, k ∈ l -> (0 <= f k)%R) -> (0 <= sum_over l f)%R.
Proof.
  induction l as [|a l IH]; intros H; simpl; [lra|].
  assert (0 <= f a)%R by (apply H; left).
  assert (0 <= sum_over l f)%R by (apply IH; intros k Hk; apply H; right; auto).
  lra.
Qed.

(** A duplicate-free sub-list that misses only zero terms gives the full sum. *)
Lemma sum_over_support sl l f :
  NoDup sl -> NoDup l ->
  (forall k, k ∈ sl -> k ∈ l) ->
  (forall k, k ∈ l -> k ∉ sl -> f k = 0%R) ->
  sum_over sl f = sum_over l f.
Proof.
  intros Nsl Nl Hsub Hzero.
  destruct (submseteq_Permutation sl l) as [rest Hp].
  { apply NoDup_submseteq; auto. }
  rewrite (sum_over_perm l (sl ++ rest) f Hp), sum_over_app.
  rewrite (sum_over_zero rest); [lra|].
  intros k Hk. apply Hzero.
  - rewrite Hp. apply elem_of_app. auto.
  - intros Hin. rewrite Hp in Nl. apply NoDup_app in Nl.
    destruct Nl as (_ & Hd & _). exact (Hd k Hin Hk).
Qed.

(** ** The band-offset / column enumeration shared by the first two kernels *)

Section BandLoops.
Variables n_t n_coeffs p : Z.
Variable row_of : Z -> Z.
Variable inner : Z -> Z -> Z -> Z -> Z -> Z -> ndarray -> outcome ndarray.
Variable F : Z -> Z -> Z -> Z -> R.

Local Abbreviation bandw := ((p + 1) * n_coeffs + 1).
Local Abbreviation N := (n_t * n_coeffs).

Hypothesis Hnt : 0 <= n_t.
Hypothesis Hnc : 0 <= n_coeffs.
Hypothesis Hbw : 0 <= bandw.
Hypothesis Hrow : forall it, row_of it = bandw - 1 - it.
Hypothesis inner_spec :
  forall it_t it_s jt_t jt_s k c m,
    wf m -> 0 <= k < shape0 m -> 0 <= c < shape1 m ->
    0 <= jt_t -> jt_t <= it_t -> it_t < n_t -> it_t - jt_t <= p ->
    0 <= it_s < n_coeffs -> 0 <= jt_s < n_coeffs ->
    exists m', inner it_t it_s jt_t jt_s k c m = Done m' /\
               adds_to m m' k c (F it_t it_s jt_t jt_s).

Local Abbreviation cell := (cell_value n_coeffs p bandw F).
Local Abbreviation inv_jt := (band_inv n_t n_coeffs p F).

Lemma band_index_facts it jt :
  0 <= it -> 0 <= jt < N - it ->
  0 < n_coeffs /\
  Z.quot (it + jt) n_coeffs = (it + jt) / n_coeffs /\
  Z.quot jt n_coeffs = jt / n_coeffs /\
  Z.rem (it + jt) n_coeffs = (it + jt) mod n_coeffs /\
  Z.rem jt n_coeffs = jt mod n_coeffs /\
  0 <= jt / n_coeffs <= (it + jt) / n_coeffs /\
  (it + jt) / n_coeffs < n_t.
Proof.
  intros Hit Hjt.
  assert (Hpos : 0 < n_coeffs) by nia.
  repeat split.
  - exact Hpos.
  - apply Z.quot_div_nonneg; lia.
  - apply Z.quot_div_nonneg; lia.
  - apply Z.rem_mod_nonneg; lia.
  - apply Z.rem_mod_nonneg; lia.
  - apply Z.div_pos; lia.
  - apply Z.div_le_mono; lia.
  - apply Z.div_lt_upper_bound; lia.
Qed.

Lemma band_column_step it jt m :
  0 <= it < bandw -> 0 <= jt < N - it ->
  inv_jt it jt m ->
  exists m',
    (let it_t := Z.quot (it + jt) n_coeffs in
     let jt_t := Z.quot jt n_coeffs in
     if p <? Z.abs (it_t - jt_t) then Done m else
     inner it_t (Z.rem (it + jt) n_coeffs) jt_t (Z.rem jt n_coeffs)
           (row_of it) (it + jt) m) = Done m' /\
    inv_jt it (jt + 1) m'.
Proof.
  intros Hit Hjt (Hwf & S0 & S1 & Hcells).
  destruct (band_index_facts it jt ltac:(lia) Hjt)
    as (Hpos & -> & -> & -> & -> & Hblk & Hlt).
  cbv zeta.
  assert (Hcell : cell (bandw - 1 - it) (it + jt) =
                  entry_value n_coeffs p F jt (it + jt)).
  { unfold cell_value. cbv zeta.
    replace (it + jt - (bandw - 1 - (bandw - 1 - it))) with jt by lia.
    destruct (Z.ltb_spec jt 0); [lia|reflexivity]. }
  destruct (Z.ltb_spec p (Z.abs ((it + jt) / n_coeffs - jt / n_coeffs)))
    as [Hskip|Hkeep].
  - exists m. split; [reflexivity|]. split; [|split; [|split]]; auto.
    intros k c Hk Hc. rewrite Hcells by auto.
    destruct (Z.ltb_spec (bandw - 1 - k) it); simpl; [reflexivity|].
    destruct (Z.eqb_spec (bandw - 1 - k) it) as [E|E]; simpl; [|reflexivity].
    destruct (Z.ltb_spec (c - it) jt), (Z.ltb_spec (c - it) (jt + 1));
      try reflexivity; try lia.
    assert (c = it + jt) by lia. assert (k = bandw - 1 - it) by lia. subst k c.
    rewrite Hcell. unfold entry_value.
    destruct (Z.ltb_spec p (Z.abs ((it + jt) / n_coeffs - jt / n_coeffs)));
      [reflexivity|lia].
  - destruct (inner_spec ((it + jt) / n_coeffs) ((it + jt) mod n_coeffs)
                (jt / n_coeffs) (jt mod n_coeffs) (row_of it) (it + jt) m)
      as (m' & Hin & (Wm' & S0' & S1') & Hadd & Hoth); auto;
      try (rewrite Hrow; lia); try lia;
      try (apply Z.mod_pos_bound; lia).
    exists m'. split; [exact Hin|].
    split; [exact Wm'|]. split; [lia|]. split; [lia|].
    intros k c Hk Hc.
    destruct (decide (k = row_of it /\ c = it + jt)) as [[-> ->]|Hne].
    + rewrite Hadd, Hcells by (rewrite ?Hrow; lia). rewrite Hrow.
      destruct (Z.ltb_spec (bandw - 1 - (bandw - 1 - it)) it); [lia|].
      destruct (Z.eqb_spec (bandw - 1 - (bandw - 1 - it)) it); [|lia].
      destruct (Z.ltb_spec (it + jt - it) jt); [lia|].
      destruct (Z.ltb_spec (it + jt - it) (jt + 1)); [|lia]. simpl.
      rewrite Hcell. unfold entry_value.
      destruct (Z.ltb_spec p (Z.abs ((it + jt) / n_coeffs - jt / n_coeffs)));
        [lia|lra].
    + rewrite Hoth by (destruct (decide (k = row_of it)); [right|left]; tauto).
      rewrite Hcells by auto.
      destruct (Z.ltb_spec (bandw - 1 - k) it); simpl; [reflexivity|].
      destruct (Z.eqb_spec (bandw - 1 - k) it) as [E|E]; simpl; [|reflexivity].
      destruct (Z.ltb_spec (c - it) jt), (Z.ltb_spec (c - it) (jt + 1));
        try reflexivity; try lia.
      exfalso. apply Hne. rewrite Hrow. lia.
Qed.

Lemma band_offset_step it m :
  0 <= it < bandw ->
  inv_jt it 0 m ->
  exists m',
    for_range 0 (N - it) m (fun jt banded =>
      let it_t := Z.quot (it + jt) n_coeffs in
      let jt_t := Z.quot jt n_coeffs in
      if p <? Z.abs (it_t - jt_t) then Done banded else
      inner it_t (Z.rem (it + jt) n_coeffs) jt_t (Z.rem jt n_coeffs)
            (row_of it) (it + jt) banded) = Done m' /\
    inv_jt (it + 1) 0 m'.
Proof.
  intros Hit H0.
  assert (Hfinish : forall m', inv_jt it (Z.max 0 (N - it)) m' ->
                               inv_jt (it + 1) 0 m').
  { intros m' (W & S0 & S1 & Hc). split; [|split; [|split]]; auto.
    intros k c Hk Hcc. rewrite Hc by auto.
    destruct (Z.ltb_spec (bandw - 1 - k) it),
             (Z.ltb_spec (bandw - 1 - k) (it + 1)); simpl; try lia.
    - reflexivity.
    - destruct (Z.eqb_spec (bandw - 1 - k) it); [|lia].
      destruct (Z.ltb_spec (c - it) (Z.max 0 (N - it))); simpl; [reflexivity|].
      unfold cell_value. cbv zeta.
      destruct (Z.ltb_spec (c - (bandw - 1 - k)) 0); [reflexivity|lia].
    - destruct (Z.eqb_spec (bandw - 1 - k) it); [lia|].
      destruct (Z.eqb_spec (bandw - 1 - k) (it + 1)); simpl.
      + destruct (Z.ltb_spec (c - (it + 1)) 0); [|reflexivity].
        unfold cell_value. cbv zeta.
        destruct (Z.ltb_spec (c - (bandw - 1 - k)) 0); [reflexivity|lia].
      + reflexivity. }
  destruct (Z.le_gt_cases (N - it) 0) as [Hemp|Hne].
  - exists m. rewrite for_range_empty by lia. split; [reflexivity|].
    apply Hfinish. replace (Z.max 0 (N - it)) with 0 by lia. exact H0.
  - destruct (for_range_inv (inv_jt it) 0 (N - it) m
                (fun jt banded =>
                   let it_t := Z.quot (it + jt) n_coeffs in
                   let jt_t := Z.quot jt n_coeffs in
                   if p <? Z.abs (it_t - jt_t) then Done banded else
                   inner it_t (Z.rem (it + jt) n_coeffs) jt_t
                         (Z.rem jt n_coeffs) (row_of it) (it + jt) banded))
      as (m' & Hrun & Hinv); [lia|exact H0| |].
    + intros jt t Hjt Ht. apply band_column_step; auto.
    + exists m'. split; [exact Hrun|]. apply Hfinish.
      replace (Z.max 0 (N - it)) with (N - it) by lia. exact Hinv.
Qed.

(** The enumeration returns a consistent [bandw x N] matrix whose every
    cell is the one dictated by the storage convention. *)
Lemma band_loops_spec :
  exists m,
    band_loops n_t n_coeffs p bandw row_of inner = Done m /\
    wf m /\ shape0 m = bandw /\ shape1 m = N /\
    forall k c, 0 <= k < bandw -> 0 <= c < N -> mval m k c = cell k c.
Proof.
  unfold band_loops.
  destruct (np_zeros_spec bandw (n_t * n_coeffs) Hbw ltac:(nia))
    as (z & -> & Wz & Z0 & Z1 & Zc). simpl.
  destruct (for_range_inv (fun it m => inv_jt it 0 m) 0 bandw z
    (fun it banded =>
      for_range 0 (n_t * n_coeffs - it) banded (fun jt banded =>
        let it_t := Z.quot (it + jt) n_coeffs in
        let jt_t := Z.quot jt n_coeffs in
        if p <? Z.abs (it_t - jt_t) then Done banded else
        inner it_t (Z.rem (it + jt) n_coeffs) jt_t (Z.rem jt n_coeffs)
              (row_of it) (it + jt) banded)))
    as (m & Hrun & (W & S0 & S1 & Hc)); [exact Hbw| | |].
  - split; [|split; [|split]]; auto. intros k c Hk Hcc. rewrite Zc.
    destruct (Z.ltb_spec (bandw - 1 - k) 0); [lia|]. simpl.
    destruct (Z.ltb_spec (c - 0) 0); [lia|]. rewrite andb_false_r. reflexivity.
  - intros it t Hit Ht. apply band_offset_step; auto.
  - exists m. split; [exact Hrun|]. split; [|split; [|split]]; auto.
    intros k c Hk Hcc. rewrite Hc by auto.
    destruct (Z.ltb_spec (bandw - 1 - k) bandw); [reflexivity|lia].
Qed.
End BandLoops.

(** ** The dense kernel *)

Lemma wf_shape_nonneg m : wf m -> 0 <= shape0 m.
Proof. intros [H _]. lia. Qed.

Lemma build_banded_unfold base_DIF temporal p :
  build_banded base_DIF temporal p =
  band_loops (shape0 temporal) (shape0 base_DIF) p
    ((p + 1) * shape0 base_DIF + 1)
    (fun it => (p + 1) * shape0 base_DIF + 1 - 1 - it)
    (fun it_t it_s jt_t jt_s k c banded =>
       for_range 0 (shape1 base_DIF) banded (fun kt banded =>
         a ← mget temporal it_t kt;
         b ← mget base_DIF it_s kt;
         c' ← mget temporal jt_t kt;
         d ← mget base_DIF jt_s kt;
         madd_at banded k c (a * b * c' * d)%R)).
Proof. reflexivity. Qed.

Lemma dense_inner_spec base_DIF temporal :
  wf base_DIF -> wf temporal -> shape1 base_DIF <= shape1 temporal ->
  forall it_t it_s jt_t jt_s k c m,
    wf m -> 0 <= k < shape0 m -> 0 <= c < shape1 m ->
    0 <= jt_t -> jt_t <= it_t -> it_t < shape0 temporal ->
    0 <= it_s < shape0 base_DIF -> 0 <= jt_s < shape0 base_DIF ->
    exists m',
      for_range 0 (shape1 base_DIF) m (fun kt banded =>
         a ← mget temporal it_t kt;
         b ← mget base_DIF it_s kt;
         c' ← mget temporal jt_t kt;
         d ← mget base_DIF jt_s kt;
         madd_at banded k c (a * b * c' * d)%R) = Done m' /\
      adds_to m m' k c (dense_sum base_DIF temporal it_t it_s jt_t jt_s).
Proof.
  intros Wb Wt Hcols it_t it_s jt_t jt_s k c m Wm Hk Hc Hj Hji Hi His Hjs.
  unfold for_range, dense_sum, observations.
  replace (shape1 base_DIF - 0) with (shape1 base_DIF) by lia.
  apply foldM_accum; auto.
  intros kt t Hkt _. apply elem_of_seqZ in Hkt.
  rewrite !mget_wf by (auto; lia). reflexivity.
Qed.

(** Every cell of the matrix returned by [build_banded]; the columns of
    [temporal] beyond [n_data] are never read. *)
Lemma build_banded_cells base_DIF temporal p :
  wf base_DIF -> wf temporal -> shape1 base_DIF <= shape1 temporal ->
  0 <= (p + 1) * shape0 base_DIF + 1 ->
  exists m,
    build_banded base_DIF temporal p = Done m /\
    wf m /\
    shape0 m = (p + 1) * shape0 base_DIF + 1 /\
    shape1 m = shape0 temporal * shape0 base_DIF /\
    forall k c,
      0 <= k < (p + 1) * shape0 base_DIF + 1 ->
      0 <= c < shape0 temporal * shape0 base_DIF ->
      mval m k c =
      cell_value (shape0 base_DIF) p ((p + 1) * shape0 base_DIF + 1)
                 (dense_sum base_DIF temporal) k c.
Proof.
  intros Wb Wt Hcols Hbw. rewrite build_banded_unfold.
  apply band_loops_spec; auto using wf_shape_nonneg.
  intros. apply dense_inner_spec; auto.
Qed.

(** The stored cell of a full-matrix entry [(row, col)] of the upper band. *)
Lemma cell_value_entry n_coeffs p bandw F row col :
  0 <= row -> row <= col ->
  cell_value n_coeffs p bandw F (bandw - 1 - (col - row)) col =
  entry_value n_coeffs p F row col.
Proof.
  intros H0 H1. unfold cell_value. cbv zeta.
  replace (col - (bandw - 1 - (bandw - 1 - (col - row)))) with row by lia.
  destruct (Z.ltb_spec row 0); [lia|reflexivity].
Qed.

Lemma entry_value_in n_coeffs p F row col :
  Z.abs (col / n_coeffs - row / n_coeffs) <= p ->
  entry_value n_coeffs p F row col =
  F (col / n_coeffs) (col mod n_coeffs) (row / n_coeffs) (row mod n_coeffs).
Proof.
  intros H. unfold entry_value.
  destruct (Z.ltb_spec p (Z.abs (col / n_coeffs - row / n_coeffs))); [lia|reflexivity].
Qed.

Lemma entry_value_out n_coeffs p F row col :
  p < Z.abs (col / n_coeffs - row / n_coeffs) ->
  entry_value n_coeffs p F row col = 0%R.
Proof.
  intros H. unfold entry_value.
  destruct (Z.ltb_spec p (Z.abs (col / n_coeffs - row / n_coeffs))); [reflexivity|lia].
Qed.

(** ** The index-accelerated kernel *)

(** A loop that reads an index and then adds [g] of it to one cell. *)
Lemma foldM_accum_via (f : Z -> outcome Z) rest (g : Z -> R) l sl m k c :
  wf m -> 0 <= k < shape0 m -> 0 <= c < shape1 m ->
  collect f l = Done sl ->
  (forall o t, o ∈ sl -> same_frame m t -> rest o t = madd_at t k c (g o)) ->
  exists m',
    foldM (fun kt t => o ← f kt; rest o t) l m = Done m' /\
    adds_to m m' k c (sum_over sl g).
Proof.
  revert sl m. induction l as [|a l IH]; intros sl m Hwf Hk Hc Hcol Hrest;
    simpl in *.
  - injection Hcol as <-. exists m. split; [reflexivity|].
    apply adds_to_refl; auto.
  - destruct (f a) as [o|e]; simpl in *; [|discriminate].
    destruct (collect f l) as [xs|e] eqn:Ec; simpl in *; [|discriminate].
    injection Hcol as <-.
    rewrite Hrest; [|left|apply same_frame_refl; auto].
    destruct (madd_at_spec m k c (g o) Hwf Hk Hc) as (m1 & -> & A1). simpl.
    destruct A1 as (F1 & E1 & O1). pose proof F1 as (W1 & S0 & S1).
    destruct (IH xs m1 W1 ltac:(lia) ltac:(lia) eq_refl) as (m2 & -> & A2).
    { intros o' t Hin Ft. apply Hrest; [right; auto|].
      eapply same_frame_trans; eauto. }
    exists m2. split; [reflexivity|].
    eapply adds_to_trans; [|exact A2]. split; auto.
Qed.

Lemma build_banded_2_unfold base_DIF temporal p nonzero_inds starts :
  build_banded_2 base_DIF temporal p nonzero_inds starts =
  band_loops (shape0 temporal) (shape0 base_DIF) p
    ((p + 1) * shape0 base_DIF + 1)
    (fun it => (p + 1) * shape0 base_DIF + 1 - it - 1)
    (fun it_t it_s jt_t jt_s k c banded =>
       let ind := it_t * shape0 temporal + jt_t in
       lo ← vget starts ind;
       hi ← vget starts (ind + 1);
       for_range lo hi banded (fun kt banded =>
         o ← vget nonzero_inds kt;
         a ← mget temporal it_t o;
         b ← mget base_DIF it_s o;
         c' ← mget temporal jt_t o;
         d ← mget base_DIF jt_s o;
         madd_at banded k c (a * b * c' * d)%R)).
Proof. reflexivity. Qed.

Lemma indexed_inner_spec base_DIF temporal p nonzero_inds starts :
  wf base_DIF -> wf temporal ->
  grouping_readable base_DIF temporal p nonzero_inds starts ->
  forall it_t it_s jt_t jt_s k c m,
    wf m -> 0 <= k < shape0 m -> 0 <= c < shape1 m ->
    0 <= jt_t -> jt_t <= it_t -> it_t < shape0 temporal -> it_t - jt_t <= p ->
    0 <= it_s < shape0 base_DIF -> 0 <= jt_s < shape0 base_DIF ->
    exists m',
      (let ind := it_t * shape0 temporal + jt_t in
       lo ← vget starts ind;
       hi ← vget starts (ind + 1);
       for_range lo hi m (fun kt banded =>
         o ← vget nonzero_inds kt;
         a ← mget temporal it_t o;
         b ← mget base_DIF it_s o;
         c' ← mget temporal jt_t o;
         d ← mget base_DIF jt_s o;
         madd_at banded k c (a * b * c' * d)%R)) = Done m' /\
      adds_to m m' k c
        (indexed_sum base_DIF temporal nonzero_inds starts it_t it_s jt_t jt_s).
Proof.
  intros Wb Wt Hgrp it_t it_s jt_t jt_s k c m Wm Hk Hc Hj Hji Hi Hp His Hjs.
  destruct (Hgrp it_t jt_t Hj Hji Hi Hp) as (sl & Hsl & Hrange).
  unfold indexed_sum, slice_or_nil. rewrite Hsl.
  unfold group_slice in Hsl. cbv zeta.
  destruct (vget starts (it_t * shape0 temporal + jt_t)) as [lo|e];
    simpl in *; [|discriminate].
  destruct (vget starts (it_t * shape0 temporal + jt_t + 1)) as [hi|e];
    simpl in *; [|discriminate].
  unfold for_range.
  apply (foldM_accum_via (vget nonzero_inds)
           (fun o banded =>
              a ← mget temporal it_t o;
              b ← mget base_DIF it_s o;
              c' ← mget temporal jt_t o;
              d ← mget base_DIF jt_s o;
              madd_at banded k c (a * b * c' * d)%R)); auto.
  intros o t Ho _. destruct (Hrange o Ho) as [Ho1 Ho2].
  rewrite !mget_wf by (auto; lia). reflexivity.
Qed.

(** Every cell of the matrix returned by [build_banded_2]. *)
Lemma build_banded_2_cells base_DIF temporal p nonzero_inds starts :
  wf base_DIF -> wf temporal ->
  0 <= (p + 1) * shape0 base_DIF + 1 ->
  grouping_readable base_DIF temporal p nonzero_inds starts ->
  exists m,
    build_banded_2 base_DIF temporal p nonzero_inds starts = Done m /\
    wf m /\
    shape0 m = (p + 1) * shape0 base_DIF + 1 /\
    shape1 m = shape0 temporal * shape0 base_DIF /\
    forall k c,
      0 <= k < (p + 1) * shape0 base_DIF + 1 ->
      0 <= c < shape0 temporal * shape0 base_DIF ->
      mval m k c =
      cell_value (shape0 base_DIF) p ((p + 1) * shape0 base_DIF + 1)
                 (indexed_sum base_DIF temporal nonzero_inds starts) k c.
Proof.
  intros Wb Wt Hbw Hgrp. rewrite build_banded_2_unfold.
  apply band_loops_spec; auto using wf_shape_nonneg.
  - intros it. lia.
  - intros. apply (indexed_inner_spec base_DIF temporal p); auto.
Qed.

Lemma grouping_exact_readable base_DIF temporal p nonzero_inds starts :
  shape1 base_DIF <= shape1 temporal ->
  grouping_exact base_DIF temporal nonzero_inds starts ->
  grouping_readable base_DIF temporal p nonzero_inds starts.
Proof.
  intros Hcols Hex it_t jt_t H0 H1 H2 _.
  destruct (Hex it_t jt_t ltac:(lia) ltac:(lia)) as (sl & Hsl & _ & Hin).
  exists sl. split; [exact Hsl|]. intros o Ho. apply Hin in Ho. lia.
Qed.

Lemma indexed_sum_exact base_DIF temporal nonzero_inds starts it_t it_s jt_t jt_s :
  grouping_exact base_DIF temporal nonzero_inds starts ->
  0 <= it_t < shape0 temporal -> 0 <= jt_t < shape0 temporal ->
  indexed_sum base_DIF temporal nonzero_inds starts it_t it_s jt_t jt_s =
  dense_sum base_DIF temporal it_t it_s jt_t jt_s.
Proof.
  intros Hex Hi Hj. destruct (Hex it_t jt_t Hi Hj) as (sl & Hsl & Nsl & Hin).
  unfold indexed_sum, slice_or_nil, dense_sum, observations. rewrite Hsl.
  apply sum_over_support; auto using NoDup_seqZ.
  - intros o Ho. apply Hin in Ho. apply elem_of_seqZ. lia.
  - intros o Ho Hnot. apply elem_of_seqZ in Ho. unfold term.
    destruct (Req_dec (mval temporal it_t o) 0) as [E|E]; [rewrite E; lra|].
    destruct (Req_dec (mval temporal jt_t o) 0) as [E'|E']; [rewrite E'; lra|].
    exfalso. apply Hnot, Hin. repeat split; auto; lia.
Qed.

(** Block indices of a stored cell lie inside the temporal range. *)
Lemma block_range n_t n_coeffs row col :
  0 <= n_coeffs -> 0 <= row -> row <= col -> col < n_t * n_coeffs ->
  0 < n_coeffs /\
  0 <= row / n_coeffs < n_t /\ 0 <= col / n_coeffs < n_t /\
  row / n_coeffs <= col / n_coeffs /\
  0 <= row mod n_coeffs < n_coeffs /\ 0 <= col mod n_coeffs < n_coeffs.
Proof.
  intros Hn H0 H1 H2.
  assert (0 < n_coeffs).
  { destruct (Z.eq_dec n_coeffs 0) as [->|]; [rewrite Z.mul_0_r in H2|]; lia. }
  assert (col / n_coeffs < n_t) by (apply Z.div_lt_upper_bound; lia).
  assert (0 <= row / n_coeffs) by (apply Z.div_pos; lia).
  assert (row / n_coeffs <= col / n_coeffs) by (apply Z.div_le_mono; lia).
  repeat split; try lia; apply Z.mod_pos_bound; lia.
Qed.

Lemma cell_value_ext n_t n_coeffs p bandw F G k c :
  0 <= n_coeffs -> 0 <= k < bandw -> 0 <= c < n_t * n_coeffs ->
  (forall it_t it_s jt_t jt_s,
     0 <= jt_t -> jt_t <= it_t -> it_t < n_t -> it_t - jt_t <= p ->
     F it_t it_s jt_t jt_s = G it_t it_s jt_t jt_s) ->
  cell_value n_coeffs p bandw F k c = cell_value n_coeffs p bandw G k c.
Proof.
  intros Hn Hk Hc HFG. unfold cell_value. cbv zeta.
  destruct (Z.ltb_spec (c - (bandw - 1 - k)) 0); [reflexivity|].
  unfold entry_value.
  destruct (Z.ltb_spec p (Z.abs (c / n_coeffs - (c - (bandw - 1 - k)) / n_coeffs)));
    [reflexivity|].
  destruct (block_range n_t n_coeffs (c - (bandw - 1 - k)) c) as (_ & ? & ? & ? & _);
    try lia.
  apply HFG; lia.
Qed.

(** With an exact grouping both kernels return the same matrix. *)
Lemma build_banded_2_agrees base_DIF temporal p nonzero_inds starts :
  wf base_DIF -> wf temporal -> shape1 temporal = shape1 base_DIF ->
  0 <= (p + 1) * shape0 base_DIF + 1 ->
  grouping_exact base_DIF temporal nonzero_inds starts ->
  exists m,
    build_banded base_DIF temporal p = Done m /\
    build_banded_2 base_DIF temporal p nonzero_inds starts = Done m.
Proof.
  intros Wb Wt Hcols Hbw Hex.
  destruct (build_banded_cells base_DIF temporal p Wb Wt ltac:(lia) Hbw)
    as (m1 & E1 & W1 & S10 & S11 & C1).
  destruct (build_banded_2_cells base_DIF temporal p nonzero_inds starts Wb Wt Hbw)
    as (m2 & E2 & W2 & S20 & S21 & C2).
  { apply grouping_exact_readable; [lia|exact Hex]. }
  exists m1. split; [exact E1|]. rewrite E2. f_equal.
  apply ndarray_ext; auto; try congruence.
  intros i j Hi Hj. rewrite C2, C1 by lia.
  apply (cell_value_ext (shape0 temporal)); auto using wf_shape_nonneg; try lia.
  intros. apply indexed_sum_exact; auto; lia.
Qed.

(** * Properties of the assembled band *)

Lemma ex_base_wf : wf ex_base.
Proof. split; [reflexivity|]. repeat constructor. Qed.

Lemma ex_temporal_wf : wf ex_temporal.
Proof. split; [reflexivity|]. repeat constructor. Qed.

(** C1: for basis matrices with equal [n_data] and [p >= 0], as long as
    the integers computed from [p] and the shapes fit a C [int],
    [build_banded] returns a [((p+1)*n_coeffs+1) x (n_t*n_coeffs)] matrix
    in which the entry [(row, col)], [col >= row], [col - row < bandwidth],
    of temporal-block distance at most [p], is stored at
    [bandwidth-1-(col-row), col] and equals the sum over all observations of
    the four-factor product. *)
Theorem build_banded_entries base_DIF temporal p :
  band_ints_in_range base_DIF temporal p ->
  wf base_DIF -> wf temporal ->
  shape1 temporal = shape1 base_DIF ->
  0 <= p ->
  exists banded,
    build_banded base_DIF temporal p = Done banded /\
    wf banded /\
    shape0 banded = (p + 1) * shape0 base_DIF + 1 /\
    shape1 banded = shape0 temporal * shape0 base_DIF /\
    forall row col,
      0 <= row -> row <= col -> col < shape0 temporal * shape0 base_DIF ->
      col - row < (p + 1) * shape0 base_DIF + 1 ->
      Z.abs (col / shape0 base_DIF - row / shape0 base_DIF) <= p ->
      mget banded ((p + 1) * shape0 base_DIF + 1 - 1 - (col - row)) col =
      Done (sum_over (seqZ 0 (shape1 base_DIF)) (fun kt =>
              mval temporal (col / shape0 base_DIF) kt
              * mval base_DIF (col mod shape0 base_DIF) kt
              * mval temporal (row / shape0 base_DIF) kt
              * mval base_DIF (row mod shape0 base_DIF) kt)%R).
Proof.
  intros _ Wb Wt Hcols Hp.
  pose proof (wf_shape_nonneg _ Wb) as Hn.
  destruct (build_banded_cells base_DIF temporal p Wb Wt ltac:(lia) ltac:(nia))
    as (m & E & W & S0 & S1 & Hc).
  exists m. split; [exact E|]. split; [exact W|].
  split; [exact S0|]. split; [exact S1|].
  intros row col H0 H1 H2 H3 H4.
  rewrite mget_wf by (auto; lia). f_equal.
  rewrite Hc by lia. rewrite cell_value_entry by lia.
  rewrite entry_value_in by lia. reflexivity.
Qed.

Lemma build_banded_entries_witness :
  band_ints_in_range ex_base ex_temporal 1 /\
  wf ex_base /\ wf ex_temporal /\ shape1 ex_temporal = shape1 ex_base /\
  0 <= 1 /\
  exists banded,
    build_banded ex_base ex_temporal 1 = Done banded /\
    wf banded /\
    shape0 banded = (1 + 1) * shape0 ex_base + 1 /\
    shape1 banded = shape0 ex_temporal * shape0 ex_base /\
    forall row col,
      0 <= row -> row <= col -> col < shape0 ex_temporal * shape0 ex_base ->
      col - row < (1 + 1) * shape0 ex_base + 1 ->
      Z.abs (col / shape0 ex_base - row / shape0 ex_base) <= 1 ->
      mget banded ((1 + 1) * shape0 ex_base + 1 - 1 - (col - row)) col =
      Done (sum_over (seqZ 0 (shape1 ex_base)) (fun kt =>
              mval ex_temporal (col / shape0 ex_base) kt
              * mval ex_base (col mod shape0 ex_base) kt
              * mval ex_temporal (row / shape0 ex_base) kt
              * mval ex_base (row mod shape0 ex_base) kt)%R).
Proof.
  split; [int_range_tac|].
  split; [exact ex_base_wf|]. split; [exact ex_temporal_wf|].
  split; [reflexivity|]. split; [lia|].
  apply (build_banded_entries ex_base ex_temporal 1);
    [int_range_tac|exact ex_base_wf|exact ex_temporal_wf|reflexivity|lia].
Defined.

Lemma ex_mval_temporal :
  mval ex_temporal 0 0 = 1%R /\ mval ex_temporal 0 1 = 0%R /\
  mval ex_temporal 1 0 = 2%R /\ mval ex_temporal 1 1 = 1%R.
Proof. repeat split; reflexivity. Qed.

Lemma ex_grouping_exact :
  grouping_exact ex_base ex_temporal ex_nonzero_inds ex_starts.
Proof.
  destruct ex_mval_temporal as (T00 & T01 & T10 & T11).
  intros it_t jt_t Hi Hj. change (shape0 ex_temporal) with 2 in *.
  change (shape1 ex_base) with 2.
  assert (Hit : it_t = 0 \/ it_t = 1) by lia.
  assert (Hjt : jt_t = 0 \/ jt_t = 1) by lia.
  destruct Hit as [-> | ->], Hjt as [-> | ->];
    (eexists; split; [vm_compute; reflexivity|]; split;
     [compute_done|]);
    intros o; rewrite ?elem_of_cons, elem_of_nil; split.
  all: try (intros [-> | [-> | []]]; rewrite ?T00, ?T01, ?T10, ?T11;
            repeat split; try lia; lra).
  all: try (intros [-> | []]; rewrite ?T00, ?T01, ?T10, ?T11;
            repeat split; try lia; lra).
  all: intros (Ho & H1 & H2);
    assert (Hoo : o = 0 \/ o = 1) by lia; destruct Hoo as [-> | ->]; auto;
    rewrite ?T00, ?T01, ?T10, ?T11 in *; exfalso; lra.
Qed.

(** C2: with equal [n_data], [p >= 0] and a grouping whose slice for every
    group [it_t * n_t + jt_t] holds exactly the observations at which both
    temporal rows are nonzero, [build_banded_2] returns the very matrix that
    [build_banded] returns, as long as the integers computed from [p], the
    shapes and the offsets fit a C [int]. *)
Theorem build_banded_2_same_matrix base_DIF temporal p nonzero_inds starts :
  band_ints_in_range base_DIF temporal p ->
  grouping_ints_in_range temporal starts ->
  wf base_DIF -> wf temporal ->
  shape1 temporal = shape1 base_DIF ->
  0 <= p ->
  grouping_exact base_DIF temporal nonzero_inds starts ->
  exists banded,
    build_banded base_DIF temporal p = Done banded /\
    build_banded_2 base_DIF temporal p nonzero_inds starts = Done banded.
Proof.
  intros _ _ Wb Wt Hcols Hp Hex.
  pose proof (wf_shape_nonneg _ Wb) as Hn.
  apply build_banded_2_agrees; auto. nia.
Qed.

Lemma build_banded_2_same_matrix_witness :
  band_ints_in_range ex_base ex_temporal 1 /\
  grouping_ints_in_range ex_temporal ex_starts /\
  wf ex_base /\ wf ex_temporal /\ shape1 ex_temporal = shape1 ex_base /\
  0 <= 1 /\ grouping_exact ex_base ex_temporal ex_nonzero_inds ex_starts /\
  exists banded,
    build_banded ex_base ex_temporal 1 = Done banded /\
    build_banded_2 ex_base ex_temporal 1 ex_nonzero_inds ex_starts = Done banded.
Proof.
  split; [int_range_tac|].
  split; [int_range_tac|].
  split; [exact ex_base_wf|]. split; [exact ex_temporal_wf|].
  split; [reflexivity|]. split; [lia|]. split; [exact ex_grouping_exact|].
  apply (build_banded_2_same_matrix ex_base ex_temporal 1);
    [int_range_tac|int_range_tac|exact ex_base_wf|exact ex_temporal_wf|reflexivity|lia
    |exact ex_grouping_exact].
Defined.

(** C7: in the matrices returned by [build_banded] and [build_banded_2], the
    stored value of every entry [(row, col)], [col >= row],
    [col - row < bandwidth], whose temporal-block distance exceeds [p] is
    exactly zero.  For [build_banded_2] the grouping only has to be readable,
    which every exact grouping is.  The integers computed from [p], the
    shapes and the offsets are taken to fit a C [int]. *)
Theorem band_zero base_DIF temporal p nonzero_inds starts :
  band_ints_in_range base_DIF temporal p ->
  grouping_ints_in_range temporal starts ->
  wf base_DIF -> wf temporal ->
  shape1 temporal = shape1 base_DIF ->
  0 <= p ->
  grouping_readable base_DIF temporal p nonzero_inds starts ->
  exists b1 b2,
    build_banded base_DIF temporal p = Done b1 /\
    build_banded_2 base_DIF temporal p nonzero_inds starts = Done b2 /\
    forall row col,
      0 <= row -> row <= col -> col < shape0 temporal * shape0 base_DIF ->
      col - row < (p + 1) * shape0 base_DIF + 1 ->
      p < Z.abs (col / shape0 base_DIF - row / shape0 base_DIF) ->
      mget b1 ((p + 1) * shape0 base_DIF + 1 - 1 - (col - row)) col = Done 0%R /\
      mget b2 ((p + 1) * shape0 base_DIF + 1 - 1 - (col - row)) col = Done 0%R.
Proof.
  intros _ _ Wb Wt Hcols Hp Hgrp.
  pose proof (wf_shape_nonneg _ Wb) as Hn.
  destruct (build_banded_cells base_DIF temporal p Wb Wt ltac:(lia) ltac:(nia))
    as (m1 & E1 & W1 & S10 & S11 & C1).
  destruct (build_banded_2_cells base_DIF temporal p nonzero_inds starts
              Wb Wt ltac:(nia) Hgrp)
    as (m2 & E2 & W2 & S20 & S21 & C2).
  exists m1, m2. split; [exact E1|]. split; [exact E2|].
  intros row col H0 H1 H2 H3 H4.
  rewrite !mget_wf by (auto; lia).
  rewrite C1, C2 by lia. rewrite !cell_value_entry by lia.
  rewrite !entry_value_out by lia. auto.
Qed.

Lemma band_zero_witness :
  band_ints_in_range ex_base ex_temporal 0 /\
  grouping_ints_in_range ex_temporal ex_starts /\
  wf ex_base /\ wf ex_temporal /\ shape1 ex_temporal = shape1 ex_base /\
  0 <= 0 /\ grouping_readable ex_base ex_temporal 0 ex_nonzero_inds ex_starts /\
  exists b1 b2,
    build_banded ex_base ex_temporal 0 = Done b1 /\
    build_banded_2 ex_base ex_temporal 0 ex_nonzero_inds ex_starts = Done b2 /\
    forall row col,
      0 <= row -> row <= col -> col < shape0 ex_temporal * shape0 ex_base ->
      col - row < (0 + 1) * shape0 ex_base + 1 ->
      0 < Z.abs (col / shape0 ex_base - row / shape0 ex_base) ->
      mget b1 ((0 + 1) * shape0 ex_base + 1 - 1 - (col - row)) col = Done 0%R /\
      mget b2 ((0 + 1) * shape0 ex_base + 1 - 1 - (col - row)) col = Done 0%R.
Proof.
  split; [int_range_tac|].
  split; [int_range_tac|].
  assert (G : grouping_readable ex_base ex_temporal 0 ex_nonzero_inds ex_starts).
  { apply grouping_exact_readable; [reflexivity|exact ex_grouping_exact]. }
  split; [exact ex_base_wf|]. split; [exact ex_temporal_wf|].
  split; [reflexivity|]. split; [lia|]. split; [exact G|].
  apply (band_zero ex_base ex_temporal 0 ex_nonzero_inds ex_starts);
    [int_range_tac|int_range_tac|exact ex_base_wf|exact ex_temporal_wf|reflexivity|lia|exact G].
Defined.

(** C10: every entry of the last band row (row [bandwidth-1], the main
    diagonal of the full matrix) is the sum over the observations of the
    squared product [temporal[t, kt] * base_DIF[s, kt]] for the column's own
    block [t] and coefficient [s]; it is therefore nonnegative.  The integers
    computed from [p] and the shapes are taken to fit a C [int]. *)
Theorem diagonal_row_sum_of_squares base_DIF temporal p :
  band_ints_in_range base_DIF temporal p ->
  wf base_DIF -> wf temporal ->
  shape1 temporal = shape1 base_DIF ->
  0 <= p ->
  exists banded,
    build_banded base_DIF temporal p = Done banded /\
    forall col,
      0 <= col < shape0 temporal * shape0 base_DIF ->
      exists x,
        mget banded ((p + 1) * shape0 base_DIF + 1 - 1) col = Done x /\
        x = sum_over (seqZ 0 (shape1 base_DIF)) (fun kt =>
              (mval temporal (col / shape0 base_DIF) kt
               * mval base_DIF (col mod shape0 base_DIF) kt) ^ 2)%R /\
        (0 <= x)%R.
Proof.
  intros _ Wb Wt Hcols Hp.
  pose proof (wf_shape_nonneg _ Wb) as Hn.
  destruct (build_banded_cells base_DIF temporal p Wb Wt ltac:(lia) ltac:(nia))
    as (m & E & W & S0 & S1 & Hc).
  exists m. split; [exact E|]. intros col Hcol.
  eexists. split; [apply mget_wf; auto; nia|].
  rewrite Hc by nia.
  replace ((p + 1) * shape0 base_DIF + 1 - 1)
    with ((p + 1) * shape0 base_DIF + 1 - 1 - (col - col)) by lia.
  rewrite cell_value_entry by lia.
  rewrite entry_value_in by (rewrite Z.sub_diag; simpl; lia).
  assert (Hsq : dense_sum base_DIF temporal (col / shape0 base_DIF)
                  (col mod shape0 base_DIF) (col / shape0 base_DIF)
                  (col mod shape0 base_DIF) =
                sum_over (seqZ 0 (shape1 base_DIF)) (fun kt =>
                  (mval temporal (col / shape0 base_DIF) kt
                   * mval base_DIF (col mod shape0 base_DIF) kt) ^ 2)%R).
  { apply sum_over_ext. intros kt _. unfold term. ring. }
  rewrite Hsq. split; [reflexivity|].
  apply sum_over_nonneg. intros kt _. apply pow2_ge_0.
Qed.

Lemma diagonal_row_sum_of_squares_witness :
  band_ints_in_range ex_base ex_temporal 1 /\
  wf ex_base /\ wf ex_temporal /\ shape1 ex_temporal = shape1 ex_base /\
  0 <= 1 /\
  exists banded,
    build_banded ex_base ex_temporal 1 = Done banded /\
    forall col,
      0 <= col < shape0 ex_temporal * shape0 ex_base ->
      exists x,
        mget banded ((1 + 1) * shape0 ex_base + 1 - 1) col = Done x /\
        x = sum_over (seqZ 0 (shape1 ex_base)) (fun kt =>
              (mval ex_temporal (col / shape0 ex_base) kt
               * mval ex_base (col mod shape0 ex_base) kt) ^ 2)%R /\
        (0 <= x)%R.
Proof.
  split; [int_range_tac|].
  split; [exact ex_base_wf|]. split; [exact ex_temporal_wf|].
  split; [reflexivity|]. split; [lia|].
  apply (diagonal_row_sum_of_squares ex_base ex_temporal 1);
    [int_range_tac|exact ex_base_wf|exact ex_temporal_wf|reflexivity|lia].
Defined.

(** ** Shapes are never validated *)

Lemma vget_app l extra i x : vget l i = Done x -> vget (l ++ extra) i = Done x.
Proof.
  unfold vget. destruct (0 <=? i); [|discriminate].
  destruct (l !! Z.to_nat i) as [y|] eqn:E; [|discriminate].
  intros H. rewrite (lookup_app_l_Some _ _ _ _ E). exact H.
Qed.

Lemma group_slice_app nonzero_inds starts extra ind sl :
  group_slice nonzero_inds starts ind = Done sl ->
  group_slice nonzero_inds (starts ++ extra) ind = Done sl.
Proof.
  unfold group_slice.
  destruct (vget starts ind) as [lo|] eqn:E1; simpl; [|discriminate].
  destruct (vget starts (ind + 1)) as [hi|] eqn:E2; simpl; [|discriminate].
  rewrite (vget_app _ extra _ _ E1), (vget_app _ extra _ _ E2). simpl. auto.
Qed.

Lemma grouping_readable_app base_DIF temporal p nonzero_inds starts extra :
  grouping_readable base_DIF temporal p nonzero_inds starts ->
  grouping_readable base_DIF temporal p nonzero_inds (starts ++ extra).
Proof.
  intros Hg it_t jt_t H0 H1 H2 H3.
  destruct (Hg it_t jt_t H0 H1 H2 H3) as (sl & Hsl & Hr).
  exists sl. split; [apply group_slice_app; exact Hsl|exact Hr].
Qed.

(** Entries of the offsets array beyond those of the visited groups are
    never read. *)
Lemma build_banded_2_ignores_tail base_DIF temporal p nonzero_inds starts extra :
  wf base_DIF -> wf temporal ->
  0 <= (p + 1) * shape0 base_DIF + 1 ->
  grouping_readable base_DIF temporal p nonzero_inds starts ->
  exists m,
    build_banded_2 base_DIF temporal p nonzero_inds starts = Done m /\
    build_banded_2 base_DIF temporal p nonzero_inds (starts ++ extra) = Done m.
Proof.
  intros Wb Wt Hbw Hg.
  destruct (build_banded_2_cells base_DIF temporal p nonzero_inds starts
              Wb Wt Hbw Hg) as (m1 & E1 & W1 & S10 & S11 & C1).
  destruct (build_banded_2_cells base_DIF temporal p nonzero_inds
              (starts ++ extra) Wb Wt Hbw)
    as (m2 & E2 & W2 & S20 & S21 & C2).
  { apply grouping_readable_app; exact Hg. }
  exists m1. split; [exact E1|]. rewrite E2. f_equal.
  apply ndarray_ext; auto; try congruence.
  intros i j Hi Hj. rewrite C2, C1 by lia.
  apply (cell_value_ext (shape0 temporal)); auto using wf_shape_nonneg; try lia.
  intros it_t it_s jt_t jt_s H0 H1 H2 H3.
  destruct (Hg it_t jt_t H0 H1 H2 H3) as (sl & Hsl & _).
  unfold indexed_sum, slice_or_nil.
  rewrite (group_slice_app _ _ extra _ _ Hsl), Hsl. reflexivity.
Qed.

Lemma ex_temporal_wide_wf : wf ex_temporal_wide.
Proof. split; [reflexivity|]. repeat constructor. Qed.

(** C4 fails as stated: a call with differing [n_data], and a call with an
    offsets array longer than [n_t*n_t+1], both return a matrix; the first
    is the matrix of the truncated temporal basis. *)
Lemma shape_mismatch_goes_unnoticed :
  shape1 ex_temporal_wide <> shape1 ex_base /\
  (exists m, build_banded ex_base ex_temporal_wide 1 = Done m /\
             build_banded ex_base ex_temporal 1 = Done m) /\
  Z.of_nat (length (ex_starts ++ [9])) <>
    shape0 ex_temporal * shape0 ex_temporal + 1 /\
  (exists m, build_banded_2 ex_base ex_temporal 1 ex_nonzero_inds
               (ex_starts ++ [9]) = Done m).
Proof.
  split; [discriminate|]. split.
  - eexists. split; vm_compute; reflexivity.
  - split; [discriminate|]. eexists. vm_compute. reflexivity.
Qed.

(** C4, amended: neither kernel validates shapes.  As long as the integers
    computed from [p], the shapes and the offsets fit a C [int]:
    [build_banded] takes [n_data] from [base_DIF] alone, and when [temporal]
    has at least that many columns the call returns the band whose entries
    sum over the first [n_data] observations, the further columns being
    ignored; [build_banded_2] never looks at the length of the offsets
    array, and entries after those of a readable grouping do not change the
    returned matrix. *)
Theorem shapes_not_validated base_DIF temporal p nonzero_inds starts extra :
  band_ints_in_range base_DIF temporal p ->
  grouping_ints_in_range temporal starts ->
  wf base_DIF -> wf temporal ->
  shape1 base_DIF <= shape1 temporal ->
  0 <= p ->
  grouping_readable base_DIF temporal p nonzero_inds starts ->
  (exists banded,
     build_banded base_DIF temporal p = Done banded /\
     forall row col,
       0 <= row -> row <= col -> col < shape0 temporal * shape0 base_DIF ->
       col - row < (p + 1) * shape0 base_DIF + 1 ->
       Z.abs (col / shape0 base_DIF - row / shape0 base_DIF) <= p ->
       mget banded ((p + 1) * shape0 base_DIF + 1 - 1 - (col - row)) col =
       Done (sum_over (seqZ 0 (shape1 base_DIF)) (fun kt =>
               mval temporal (col / shape0 base_DIF) kt
               * mval base_DIF (col mod shape0 base_DIF) kt
               * mval temporal (row / shape0 base_DIF) kt
               * mval base_DIF (row mod shape0 base_DIF) kt)%R)) /\
  (exists banded,
     build_banded_2 base_DIF temporal p nonzero_inds starts = Done banded /\
     build_banded_2 base_DIF temporal p nonzero_inds (starts ++ extra) =
     Done banded).
Proof.
  intros _ _ Wb Wt Hcols Hp Hg.
  pose proof (wf_shape_nonneg _ Wb) as Hn. split.
  - destruct (build_banded_cells base_DIF temporal p Wb Wt Hcols ltac:(nia))
      as (m & E & W & S0 & S1 & Hc).
    exists m. split; [exact E|].
    intros row col H0 H1 H2 H3 H4.
    rewrite mget_wf by (auto; lia). f_equal.
    rewrite Hc by lia. rewrite cell_value_entry by lia.
    rewrite entry_value_in by lia. reflexivity.
  - apply build_banded_2_ignores_tail; auto. nia.
Qed.

Lemma shapes_not_validated_witness :
  band_ints_in_range ex_base ex_temporal_wide 1 /\
  grouping_ints_in_range ex_temporal_wide ex_starts /\
  wf ex_base /\ wf ex_temporal_wide /\
  shape1 ex_base <= shape1 ex_temporal_wide /\ 0 <= 1 /\
  grouping_readable ex_base ex_temporal_wide 1 ex_nonzero_inds ex_starts /\
  (exists banded,
     build_banded ex_base ex_temporal_wide 1 = Done banded /\
     forall row col,
       0 <= row -> row <= col ->
       col < shape0 ex_temporal_wide * shape0 ex_base ->
       col - row < (1 + 1) * shape0 ex_base + 1 ->
       Z.abs (col / shape0 ex_base - row / shape0 ex_base) <= 1 ->
       mget banded ((1 + 1) * shape0 ex_base + 1 - 1 - (col - row)) col =
       Done (sum_over (seqZ 0 (shape1 ex_base)) (fun kt =>
               mval ex_temporal_wide (col / shape0 ex_base) kt
               * mval ex_base (col mod shape0 ex_base) kt
               * mval ex_temporal_wide (row / shape0 ex_base) kt
               * mval ex_base (row mod shape0 ex_base) kt)%R)) /\
  (exists banded,
     build_banded_2 ex_base ex_temporal_wide 1 ex_nonzero_inds ex_starts =
     Done banded /\
     build_banded_2 ex_base ex_temporal_wide 1 ex_nonzero_inds
       (ex_starts ++ [9]) = Done banded).
Proof.
  split; [int_range_tac|].
  split; [int_range_tac|].
  assert (G : grouping_readable ex_base ex_temporal_wide 1
                ex_nonzero_inds ex_starts).
  { intros it_t jt_t H0 H1 H2 H3. change (shape0 ex_temporal_wide) with 2 in *.
    assert (Hc : (it_t = 0 /\ jt_t = 0) \/ (it_t = 1 /\ jt_t = 0) \/
                 (it_t = 1 /\ jt_t = 1)) by lia.
    destruct Hc as [[-> ->]|[[-> ->]|[-> ->]]];
      (eexists; split; [vm_compute; reflexivity|]);
      intros o; rewrite ?elem_of_cons, elem_of_nil;
      change (shape1 ex_base) with 2; change (shape1 ex_temporal_wide) with 3;
      lia. }
  split; [exact ex_base_wf|]. split; [exact ex_temporal_wide_wf|].
  split; [simpl; lia|]. split; [lia|]. split; [exact G|].
  apply (shapes_not_validated ex_base ex_temporal_wide 1 ex_nonzero_inds
           ex_starts [9]);
    [int_range_tac|int_range_tac|exact ex_base_wf|exact ex_temporal_wide_wf|simpl; lia|lia|exact G].
Defined.

(** ** Negative band parameters *)

Lemma band_loops_negative_p n_t n_coeffs p row_of inner :
  0 <= n_t -> 0 <= n_coeffs -> p < 0 -> 0 <= (p + 1) * n_coeffs + 1 ->
  (forall it, row_of it = (p + 1) * n_coeffs + 1 - 1 - it) ->
  band_loops n_t n_coeffs p ((p + 1) * n_coeffs + 1) row_of inner =
  np_zeros ((p + 1) * n_coeffs + 1) (n_t * n_coeffs).
Proof.
  intros Hnt Hnc Hp Hbw Hrow.
  destruct (band_loops_spec n_t n_coeffs p row_of inner (fun _ _ _ _ => 0%R)
              Hnt Hnc Hbw Hrow) as (m & E & W & S0 & S1 & Hc).
  { intros. lia. }
  destruct (np_zeros_spec ((p + 1) * n_coeffs + 1) (n_t * n_coeffs) Hbw
              ltac:(nia)) as (z & Ez & Wz & Z0 & Z1 & Zc).
  rewrite E, Ez. f_equal. apply ndarray_ext; auto; try congruence.
  intros i j Hi Hj. rewrite Hc, Zc by lia.
  unfold cell_value, entry_value. cbv zeta.
  repeat (destruct (_ <? _)); reflexivity.
Qed.

Lemma build_banded_3_negative_deg nlefts base_DIF temporal deg :
  wf base_DIF -> wf temporal -> deg < 0 ->
  0 <= (deg + 1) * shape0 base_DIF ->
  shape1 base_DIF <= Z.of_nat (length nlefts) ->
  build_banded_3 nlefts base_DIF temporal deg =
  np_zeros ((deg + 1) * shape0 base_DIF) (shape0 temporal * shape0 base_DIF).
Proof.
  intros Wb Wt Hdeg Hbw Hlen. unfold build_banded_3.
  pose proof (wf_shape_nonneg _ Wb). pose proof (wf_shape_nonneg _ Wt).
  destruct (np_zeros_spec ((deg + 1) * shape0 base_DIF)
              (shape0 temporal * shape0 base_DIF) Hbw ltac:(nia))
    as (z & -> & _). simpl.
  destruct (Z.le_gt_cases (shape1 base_DIF) 0) as [Hemp|Hpos].
  { rewrite for_range_empty by lia. reflexivity. }
  match goal with |- for_range 0 _ z ?body = _ =>
    destruct (for_range_inv (fun _ m => m = z) 0 (shape1 base_DIF) z body)
      as (m & -> & ->); [lia|reflexivity| |reflexivity]
  end.
  intros it t Hit ->. exists z. split; [|reflexivity].
  unfold vget. destruct (Z.leb_spec 0 it); [|lia].
  destruct (lookup_lt_is_Some_2 nlefts (Z.to_nat it)) as [nl ->]; [lia|].
  simpl. apply for_range_empty. lia.
Qed.

(** C5 fails as stated: [p = -1] is accepted by [build_banded], which returns
    an all-zero one-row band, and [deg = -1], for which the bandwidth is
    zero, is accepted by [build_banded_3], which returns a band without
    rows. *)
Lemma negative_parameter_accepted :
  build_banded ex_base ex_temporal (-1) =
    Done {| shape0 := 1; shape1 := 4; data := [[0; 0; 0; 0]]%R |} /\
  build_banded_3 [1; 1] ex_base ex_temporal (-1) =
    Done {| shape0 := 0; shape1 := 4; data := [] |}.
Proof. split; reflexivity. Qed.

(** C5, amended: no kernel checks the sign of [p] or [deg].  As long as the
    C integers do not overflow, a call fails, with the [ValueError] of the
    allocation, when the computed bandwidth is negative ([nlefts] is not
    read before that); a call with a negative parameter whose bandwidth is
    not negative returns the all-zero band of that shape, for
    [build_banded_3] provided [nlefts] has an entry for every observation. *)
Theorem negative_parameter_behaviour
    nlefts_any nlefts base_DIF temporal nonzero_inds starts
    p_err deg_err p_zero deg_zero :
  wf base_DIF -> wf temporal ->
  (band_ints_in_range base_DIF temporal p_err ->
   (p_err + 1) * shape0 base_DIF + 1 < 0 ->
     build_banded base_DIF temporal p_err = Fault ValueError /\
     build_banded_2 base_DIF temporal p_err nonzero_inds starts
       = Fault ValueError) /\
  (degree_ints_in_range base_DIF temporal deg_err ->
   (deg_err + 1) * shape0 base_DIF < 0 ->
     build_banded_3 nlefts_any base_DIF temporal deg_err = Fault ValueError) /\
  (band_ints_in_range base_DIF temporal p_zero ->
   p_zero < 0 -> 0 <= (p_zero + 1) * shape0 base_DIF + 1 ->
     build_banded base_DIF temporal p_zero =
       np_zeros ((p_zero + 1) * shape0 base_DIF + 1)
                (shape0 temporal * shape0 base_DIF) /\
     build_banded_2 base_DIF temporal p_zero nonzero_inds starts =
       np_zeros ((p_zero + 1) * shape0 base_DIF + 1)
                (shape0 temporal * shape0 base_DIF)) /\
  (degree_ints_in_range base_DIF temporal deg_zero ->
   window_ints_in_range nlefts base_DIF temporal deg_zero ->
   deg_zero < 0 -> 0 <= (deg_zero + 1) * shape0 base_DIF ->
   shape1 base_DIF <= Z.of_nat (length nlefts) ->
     build_banded_3 nlefts base_DIF temporal deg_zero =
       np_zeros ((deg_zero + 1) * shape0 base_DIF)
                (shape0 temporal * shape0 base_DIF)).
Proof.
  intros Wb Wt.
  pose proof (wf_shape_nonneg _ Wb). pose proof (wf_shape_nonneg _ Wt).
  split; [|split; [|split]].
  - intros _ Hneg. unfold build_banded, build_banded_2. cbv zeta.
    rewrite np_zeros_neg by lia. split; reflexivity.
  - intros _ Hneg. unfold build_banded_3. cbv zeta.
    rewrite np_zeros_neg by lia. reflexivity.
  - intros _ Hp Hbw. rewrite build_banded_unfold, build_banded_2_unfold.
    split; apply band_loops_negative_p; auto; intros; lia.
  - intros _ _ Hdeg Hbw Hlen. apply build_banded_3_negative_deg; auto.
Qed.

Lemma negative_parameter_behaviour_witness :
  wf ex_base /\ wf ex_temporal /\
  band_ints_in_range ex_base ex_temporal (-2) /\
  (-2 + 1) * shape0 ex_base + 1 < 0 /\
  degree_ints_in_range ex_base ex_temporal (-2) /\
  (-2 + 1) * shape0 ex_base < 0 /\
  band_ints_in_range ex_base ex_temporal (-1) /\
  -1 < 0 /\ 0 <= (-1 + 1) * shape0 ex_base + 1 /\
  degree_ints_in_range ex_base ex_temporal (-1) /\
  window_ints_in_range [1; 1] ex_base ex_temporal (-1) /\
  0 <= (-1 + 1) * shape0 ex_base /\
  shape1 ex_base <= Z.of_nat (length [1; 1]) /\
  build_banded ex_base ex_temporal (-2) = Fault ValueError /\
  build_banded_2 ex_base ex_temporal (-2) ex_nonzero_inds ex_starts
    = Fault ValueError /\
  build_banded_3 [] ex_base ex_temporal (-2) = Fault ValueError /\
  build_banded ex_base ex_temporal (-1) =
    np_zeros ((-1 + 1) * shape0 ex_base + 1) (shape0 ex_temporal * shape0 ex_base) /\
  build_banded_2 ex_base ex_temporal (-1) ex_nonzero_inds ex_starts =
    np_zeros ((-1 + 1) * shape0 ex_base + 1) (shape0 ex_temporal * shape0 ex_base) /\
  build_banded_3 [1; 1] ex_base ex_temporal (-1) =
    np_zeros ((-1 + 1) * shape0 ex_base) (shape0 ex_temporal * shape0 ex_base).
Proof.
  assert (B2 : band_ints_in_range ex_base ex_temporal (-2)) by int_range_tac.
  assert (N2 : (-2 + 1) * shape0 ex_base + 1 < 0) by (simpl; lia).
  assert (D2 : degree_ints_in_range ex_base ex_temporal (-2)) by int_range_tac.
  assert (M2 : (-2 + 1) * shape0 ex_base < 0) by (simpl; lia).
  assert (B1 : band_ints_in_range ex_base ex_temporal (-1)) by int_range_tac.
  assert (P1 : 0 <= (-1 + 1) * shape0 ex_base + 1) by (simpl; lia).
  assert (D1 : degree_ints_in_range ex_base ex_temporal (-1)) by int_range_tac.
  assert (W1 : window_ints_in_range [1; 1] ex_base ex_temporal (-1)).
  { intros it Hit _. change (shape1 ex_base) with 2 in Hit.
    assert (Hc : it = 0 \/ it = 1) by lia.
    destruct Hc as [-> | ->]; window_leaf_tac. }
  assert (Q1 : 0 <= (-1 + 1) * shape0 ex_base) by (simpl; lia).
  assert (L : shape1 ex_base <= Z.of_nat (length [1; 1])) by (simpl; lia).
  destruct (negative_parameter_behaviour [] [1; 1] ex_base ex_temporal
              ex_nonzero_inds ex_starts (-2) (-2) (-1) (-1)
              ex_base_wf ex_temporal_wf) as (E12 & E3 & Z12 & Z3).
  destruct (E12 B2 N2) as (E1 & E2).
  destruct (Z12 B1 ltac:(lia) P1) as (Z1 & Z2).
  split; [exact ex_base_wf|]. split; [exact ex_temporal_wf|].
  split; [exact B2|]. split; [exact N2|]. split; [exact D2|].
  split; [exact M2|]. split; [exact B1|]. split; [lia|]. split; [exact P1|].
  split; [exact D1|]. split; [exact W1|]. split; [exact Q1|].
  split; [exact L|].
  split; [exact E1|]. split; [exact E2|]. split; [exact (E3 D2 M2)|].
  split; [exact Z1|]. split; [exact Z2|].
  exact (Z3 D1 W1 ltac:(lia) Q1 L).
Defined.

(** ** Restricting the observations *)

Lemma take_columns_wf m cols : wf m -> wf (take_columns m cols).
Proof.
  intros [Hl Hr]. split; simpl.
  - rewrite length_map. exact Hl.
  - apply Forall_forall. intros r Hr'. apply list_elem_of_fmap in Hr'.
    destruct Hr' as (r0 & -> & _). rewrite length_map. reflexivity.
Qed.

Lemma mval_take_columns m cols i j c :
  wf m -> valid_columns m cols -> 0 <= j -> cols !! Z.to_nat j = Some c ->
  mval (take_columns m cols) i j = mval m i c.
Proof.
  intros Wm Hv Hj Hc.
  assert (Hcr : 0 <= c < shape1 m).
  { apply Hv, list_elem_of_lookup. eauto. }
  assert (Hjl : j < Z.of_nat (length cols)).
  { apply lookup_lt_Some in Hc. lia. }
  destruct (decide (0 <= i < shape0 m)) as [Hi|Hi].
  - unfold mval at 1. unfold mget.
    rewrite (proj2 (in_shape_true _ i j)) by (simpl; lia).
    destruct (wf_row m i Wm Hi) as (r & Hr & Hlen). simpl.
    change (map ?f ?l) with (f <$> l).
    rewrite list_lookup_fmap, Hr. simpl.
    change (map ?f ?l) with (f <$> l).
    rewrite list_lookup_fmap, Hc. simpl.
    unfold mval, mget. rewrite (proj2 (in_shape_true _ i c)) by lia.
    rewrite Hr.
    destruct (lookup_lt_is_Some_2 r (Z.to_nat c)) as [x Hx]; [lia|].
    rewrite Hx. apply nth_lookup_Some with (d := 0%R) in Hx. exact Hx.
  - rewrite !mval_out by (simpl; lia). reflexivity.
Qed.

(** Summing over positions of a list is summing over its elements. *)
Lemma sum_over_positions (l : list Z) (f g : Z -> R) :
  (forall i c, l !! i = Some c -> f (Z.of_nat i) = g c) ->
  sum_over (seqZ 0 (Z.of_nat (length l))) f = sum_over l g.
Proof.
  induction l as [|x l IH] using rev_ind; intros H; [reflexivity|].
  rewrite length_app. simpl length.
  replace (length l + 1)%nat with (S (length l)) by lia.
  rewrite seqZ_S, !sum_over_app. simpl. f_equal.
  - apply IH. intros i c Hi. apply H. apply lookup_app_l_Some. exact Hi.
  - f_equal. apply H. rewrite lookup_app_r by lia.
    replace (length l - length l)%nat with 0%nat by lia. reflexivity.
Qed.

Lemma dense_sum_take_columns base_DIF temporal cols it_t it_s jt_t jt_s :
  wf base_DIF -> wf temporal ->
  valid_columns base_DIF cols -> valid_columns temporal cols ->
  dense_sum (take_columns base_DIF cols) (take_columns temporal cols)
            it_t it_s jt_t jt_s =
  sum_over cols (term base_DIF temporal it_t it_s jt_t jt_s).
Proof.
  intros Wb Wt Vb Vt. unfold dense_sum, observations. simpl.
  apply sum_over_positions. intros i c Hi. unfold term.
  rewrite !(mval_take_columns _ cols _ (Z.of_nat i) c);
    auto; try lia; rewrite Nat2Z.id; exact Hi.
Qed.

Lemma madd_wf a b :
  wf a -> wf b -> shape0 a = shape0 b -> shape1 a = shape1 b -> wf (madd a b).
Proof.
  intros [La Ra] [Lb Rb] H0 H1. split; simpl.
  - rewrite length_zip_with. lia.
  - apply Forall_forall. intros r Hr. apply list_elem_of_lookup in Hr.
    destruct Hr as [i Hi]. apply lookup_zip_with_Some in Hi.
    destruct Hi as (ra & rb & -> & Ha & Hb).
    rewrite length_zip_with.
    rewrite Forall_forall in Ra, Rb.
    assert (Z.of_nat (length ra) = shape1 a).
    { apply Ra, list_elem_of_lookup; eauto. }
    assert (Z.of_nat (length rb) = shape1 b).
    { apply Rb, list_elem_of_lookup; eauto. }
    lia.
Qed.

Lemma mval_madd a b i j :
  wf a -> wf b -> shape0 a = shape0 b -> shape1 a = shape1 b ->
  mval (madd a b) i j = (mval a i j + mval b i j)%R.
Proof.
  intros Wa Wb H0 H1.
  destruct (decide (0 <= i < shape0 a /\ 0 <= j < shape1 a)) as [[Hi Hj]|Hout].
  - unfold mval, mget.
    rewrite !(proj2 (in_shape_true _ i j)) by (simpl; lia).
    destruct (wf_row a i Wa Hi) as (ra & Hra & Hla).
    destruct (wf_row b i Wb ltac:(lia)) as (rb & Hrb & Hlb).
    destruct (lookup_lt_is_Some_2 ra (Z.to_nat j)) as [x Hx]; [lia|].
    destruct (lookup_lt_is_Some_2 rb (Z.to_nat j)) as [y Hy]; [lia|].
    simpl. rewrite lookup_zip_with, Hra, Hrb. simpl.
    rewrite lookup_zip_with, Hx, Hy. reflexivity.
  - rewrite !mval_out by (simpl; lia). lra.
Qed.

Lemma cell_value_plus n_coeffs p bandw F G H k c :
  (forall a b a' b', F a b a' b' = (G a b a' b' + H a b a' b')%R) ->
  cell_value n_coeffs p bandw F k c =
  (cell_value n_coeffs p bandw G k c + cell_value n_coeffs p bandw H k c)%R.
Proof.
  intros HF. unfold cell_value, entry_value. cbv zeta.
  repeat (destruct (_ <? _)); try lra. apply HF.
Qed.

(** Additivity of the dense assembly over a split of the observations. *)
Lemma build_banded_additive base_DIF temporal p (U A B : list Z) :
  wf base_DIF -> wf temporal ->
  0 <= (p + 1) * shape0 base_DIF + 1 ->
  valid_columns base_DIF U -> valid_columns temporal U ->
  U ≡ₚ A ++ B ->
  exists mU mA mB,
    build_banded (take_columns base_DIF U) (take_columns temporal U) p = Done mU /\
    build_banded (take_columns base_DIF A) (take_columns temporal A) p = Done mA /\
    build_banded (take_columns base_DIF B) (take_columns temporal B) p = Done mB /\
    mU = madd mA mB.
Proof.
  intros Wb Wt Hbw VbU VtU Hperm.
  assert (VA : valid_columns base_DIF A /\ valid_columns temporal A).
  { split; intros c Hc; [apply VbU|apply VtU]; rewrite Hperm;
      apply elem_of_app; auto. }
  assert (VB : valid_columns base_DIF B /\ valid_columns temporal B).
  { split; intros c Hc; [apply VbU|apply VtU]; rewrite Hperm;
      apply elem_of_app; auto. }
  destruct VA as [VbA VtA], VB as [VbB VtB].
  destruct (build_banded_cells (take_columns base_DIF U) (take_columns temporal U) p)
    as (mU & EU & WU & SU0 & SU1 & CU); auto using take_columns_wf; [simpl; lia|].
  destruct (build_banded_cells (take_columns base_DIF A) (take_columns temporal A) p)
    as (mA & EA & WA & SA0 & SA1 & CA); auto using take_columns_wf; [simpl; lia|].
  destruct (build_banded_cells (take_columns base_DIF B) (take_columns temporal B) p)
    as (mB & EB & WB & SB0 & SB1 & CB); auto using take_columns_wf; [simpl; lia|].
  simpl in *.
  exists mU, mA, mB. repeat split; auto.
  apply ndarray_ext; auto.
  - apply madd_wf; auto; congruence.
  - simpl. congruence.
  - simpl. congruence.
  - intros i j Hi Hj. rewrite mval_madd by (auto; congruence).
    rewrite CU, CA, CB by lia.
    apply cell_value_plus. intros a b a' b'.
    rewrite !dense_sum_take_columns by auto.
    rewrite (sum_over_perm _ _ _ Hperm). apply sum_over_app.
Qed.

(** C8: for [p >= 0] and disjoint duplicate-free sets [A] and [B] of
    observation columns with union [U], the band assembled from the columns
    [U] is the entrywise sum of the band assembled from [A] alone and the
    band assembled from [B] alone, as long as in each of the three calls the
    integers computed from [p] and the shapes fit a C [int]. *)
Theorem additivity_over_observations base_DIF temporal p (U A B : list Z) :
  band_ints_in_range (take_columns base_DIF U) (take_columns temporal U) p ->
  band_ints_in_range (take_columns base_DIF A) (take_columns temporal A) p ->
  band_ints_in_range (take_columns base_DIF B) (take_columns temporal B) p ->
  wf base_DIF -> wf temporal ->
  shape1 temporal = shape1 base_DIF ->
  0 <= p ->
  NoDup A -> NoDup B -> NoDup U ->
  (forall k, k ∈ A -> k ∉ B) ->
  (forall k, k ∈ U <-> k ∈ A \/ k ∈ B) ->
  (forall k, k ∈ U -> 0 <= k < shape1 base_DIF) ->
  exists mU mA mB,
    build_banded (take_columns base_DIF U) (take_columns temporal U) p = Done mU /\
    build_banded (take_columns base_DIF A) (take_columns temporal A) p = Done mA /\
    build_banded (take_columns base_DIF B) (take_columns temporal B) p = Done mB /\
    mU = madd mA mB.
Proof.
  intros _ _ _ Wb Wt Hcols Hp NA NB NU Hdisj Hunion Hrange.
  pose proof (wf_shape_nonneg _ Wb) as Hn.
  apply build_banded_additive; auto.
  - nia.
  - intros c Hc. unfold valid_columns in *. rewrite Hcols. auto.
  - apply NoDup_Permutation; auto.
    + apply NoDup_app. auto.
    + intros k. rewrite elem_of_app. apply Hunion.
Qed.

Lemma additivity_over_observations_witness :
  band_ints_in_range (take_columns ex_base [0; 1]) (take_columns ex_temporal [0; 1]) 1 /\
  band_ints_in_range (take_columns ex_base [1]) (take_columns ex_temporal [1]) 1 /\
  band_ints_in_range (take_columns ex_base [0]) (take_columns ex_temporal [0]) 1 /\
  wf ex_base /\ wf ex_temporal /\ shape1 ex_temporal = shape1 ex_base /\
  0 <= 1 /\ NoDup [1] /\ NoDup [0] /\ NoDup [0; 1] /\
  (forall k : Z, k ∈ [1] -> k ∉ [0]) /\
  (forall k : Z, k ∈ [0; 1] <-> k ∈ [1] \/ k ∈ [0]) /\
  (forall k : Z, k ∈ [0; 1] -> 0 <= k < shape1 ex_base) /\
  exists mU mA mB,
    build_banded (take_columns ex_base [0; 1]) (take_columns ex_temporal [0; 1]) 1
      = Done mU /\
    build_banded (take_columns ex_base [1]) (take_columns ex_temporal [1]) 1
      = Done mA /\
    build_banded (take_columns ex_base [0]) (take_columns ex_temporal [0]) 1
      = Done mB /\
    mU = madd mA mB.
Proof.
  split; [int_range_tac|]. split; [int_range_tac|]. split; [int_range_tac|].
  assert (NA : NoDup [1]) by compute_done.
  assert (NB : NoDup [0]) by compute_done.
  assert (NU : NoDup [0; 1]) by compute_done.
  assert (D : forall k : Z, k ∈ [1] -> k ∉ [0]).
  { intros k. rewrite !elem_of_cons, !elem_of_nil. lia. }
  assert (Un : forall k : Z, k ∈ [0; 1] <-> k ∈ [1] \/ k ∈ [0]).
  { intros k. rewrite !elem_of_cons, !elem_of_nil. lia. }
  assert (Rg : forall k : Z, k ∈ [0; 1] -> 0 <= k < shape1 ex_base).
  { intros k. rewrite !elem_of_cons, !elem_of_nil. simpl. lia. }
  split; [exact ex_base_wf|]. split; [exact ex_temporal_wf|].
  split; [reflexivity|]. split; [lia|].
  split; [exact NA|]. split; [exact NB|]. split; [exact NU|].
  split; [exact D|]. split; [exact Un|]. split; [exact Rg|].
  apply (additivity_over_observations ex_base ex_temporal 1 [0; 1] [1] [0]);
    [int_range_tac|int_range_tac|int_range_tac
    |exact ex_base_wf|exact ex_temporal_wf|reflexivity|lia
    |exact NA|exact NB|exact NU|exact D|exact Un|exact Rg].
Defined.

(** ** The full matrix implied by a band *)

Lemma full_matrix_sym banded row col :
  full_matrix banded row col = full_matrix banded col row.
Proof. unfold full_matrix. rewrite Z.min_comm, Z.max_comm. reflexivity. Qed.

Lemma sum_over_mult l1 l2 (f g : Z -> R) :
  (sum_over l1 f * sum_over l2 g)%R =
  sum_over l1 (fun i => sum_over l2 (fun j => (f i * g j)%R)).
Proof.
  induction l1 as [|a l IH]; simpl; [lra|].
  rewrite <- IH, sum_over_scal. lra.
Qed.

(** The quadratic form of a Gram matrix is a sum of squares. *)
Lemma quad_form_gram rows obs (v : Z -> R) (a : Z -> Z -> R) :
  sum_over rows (fun r => sum_over rows (fun c =>
    (v r * sum_over obs (fun kt => (a r kt * a c kt)%R) * v c)%R)) =
  sum_over obs (fun kt => (sum_over rows (fun r => (v r * a r kt)%R)) ^ 2)%R.
Proof.
  transitivity
    (sum_over rows (fun r => sum_over rows (fun c =>
       sum_over obs (fun kt => ((v r * a r kt) * (v c * a c kt))%R)))).
  { apply sum_over_ext. intros r _. apply sum_over_ext. intros c _.
    rewrite (sum_over_ext obs
               (fun kt => ((v r * a r kt) * (v c * a c kt))%R)
               (fun kt => ((v r * v c) * (a r kt * a c kt))%R))
      by (intros kt _; ring).
    rewrite sum_over_scal. ring. }
  transitivity
    (sum_over rows (fun r => sum_over obs (fun kt =>
       sum_over rows (fun c => ((v r * a r kt) * (v c * a c kt))%R)))).
  { apply sum_over_ext. intros r _. apply sum_over_swap. }
  rewrite sum_over_swap. apply sum_over_ext. intros kt _.
  rewrite <- sum_over_mult. ring.
Qed.

Lemma gram_outside_band base_DIF temporal p lo hi :
  wf base_DIF ->
  shape1 temporal = shape1 base_DIF ->
  band_covers_support temporal p ->
  0 <= lo -> lo <= hi -> hi < shape0 temporal * shape0 base_DIF ->
  p < Z.abs (hi / shape0 base_DIF - lo / shape0 base_DIF) ->
  sum_over (observations base_DIF) (fun kt =>
    (design base_DIF temporal hi kt * design base_DIF temporal lo kt)%R) = 0%R.
Proof.
  intros Wb Hcols Hsup H0 H1 H2 Hfar.
  destruct (block_range (shape0 temporal) (shape0 base_DIF) lo hi)
    as (_ & Hlo & Hhi & _); auto using wf_shape_nonneg.
  apply sum_over_zero. intros kt Hkt. apply elem_of_seqZ in Hkt.
  unfold design.
  assert (E : (mval temporal (hi / shape0 base_DIF) kt
               * mval temporal (lo / shape0 base_DIF) kt)%R = 0%R).
  { apply Hsup; auto; lia. }
  transitivity
    ((mval temporal (hi / shape0 base_DIF) kt
      * mval temporal (lo / shape0 base_DIF) kt)
     * (mval base_DIF (hi mod shape0 base_DIF) kt
        * mval base_DIF (lo mod shape0 base_DIF) kt))%R; [ring|].
  rewrite E. ring.
Qed.

(** When the band covers the temporal support, the matrix implied by the
    band of [build_banded] is the Gram matrix of the design rows. *)
Lemma full_matrix_gram base_DIF temporal p m :
  wf base_DIF -> wf temporal ->
  shape1 temporal = shape1 base_DIF ->
  0 <= p ->
  band_covers_support temporal p ->
  build_banded base_DIF temporal p = Done m ->
  forall r c,
    0 <= r < shape0 temporal * shape0 base_DIF ->
    0 <= c < shape0 temporal * shape0 base_DIF ->
    full_matrix m r c =
    sum_over (observations base_DIF) (fun kt =>
      (design base_DIF temporal r kt * design base_DIF temporal c kt)%R).
Proof.
  intros Wb Wt Hcols Hp Hsup Hm.
  pose proof (wf_shape_nonneg _ Wb) as Hn.
  destruct (build_banded_cells base_DIF temporal p Wb Wt ltac:(lia) ltac:(nia))
    as (m' & E & W & S0 & S1 & Hc).
  rewrite Hm in E. injection E as <-.
  assert (Hup : forall lo hi,
    0 <= lo -> lo <= hi -> hi < shape0 temporal * shape0 base_DIF ->
    (if hi - lo <? shape0 m
     then mval m (shape0 m - 1 - (hi - lo)) hi else 0%R) =
    sum_over (observations base_DIF) (fun kt =>
      (design base_DIF temporal hi kt * design base_DIF temporal lo kt)%R)).
  { intros lo hi H0 H1 H2. rewrite S0.
    destruct (block_range (shape0 temporal) (shape0 base_DIF) lo hi)
      as (Hpos & Hlo & Hhi & Hle & _); auto.
    destruct (Z.ltb_spec (hi - lo) ((p + 1) * shape0 base_DIF + 1)) as [Hin|Hout].
    - rewrite Hc by lia. rewrite cell_value_entry by lia.
      unfold entry_value.
      destruct (Z.ltb_spec p (Z.abs (hi / shape0 base_DIF - lo / shape0 base_DIF))).
      + symmetry. apply (gram_outside_band base_DIF temporal p); auto.
      + unfold dense_sum. apply sum_over_ext. intros kt _.
        unfold term, design. ring.
    - symmetry. apply (gram_outside_band base_DIF temporal p); auto.
      assert (lo / shape0 base_DIF + (p + 1) <= hi / shape0 base_DIF).
      { rewrite <- Z.div_add by lia. apply Z.div_le_mono; lia. }
      lia. }
  intros r c Hr Hcc. unfold full_matrix. cbv zeta.
  destruct (Z.le_gt_cases r c).
  - rewrite Z.min_l, Z.max_r by lia. rewrite Hup by lia.
    apply sum_over_ext. intros kt _. ring.
  - rewrite Z.min_r, Z.max_l by lia. rewrite Hup by lia. reflexivity.
Qed.

Lemma quad_form_nonneg base_DIF temporal p m v :
  wf base_DIF -> wf temporal ->
  shape1 temporal = shape1 base_DIF ->
  0 <= p ->
  band_covers_support temporal p ->
  build_banded base_DIF temporal p = Done m ->
  (0 <= quad_form (full_matrix m) (shape0 temporal * shape0 base_DIF) v)%R.
Proof.
  intros Wb Wt Hcols Hp Hsup Hm. unfold quad_form.
  rewrite (sum_over_ext _ _ (fun r =>
    sum_over (seqZ 0 (shape0 temporal * shape0 base_DIF)) (fun c =>
      (vec_at v r
       * sum_over (observations base_DIF) (fun kt =>
           (design base_DIF temporal r kt * design base_DIF temporal c kt)%R)
       * vec_at v c)%R))).
  - rewrite quad_form_gram. apply sum_over_nonneg. intros kt _. apply pow2_ge_0.
  - intros r Hr. apply sum_over_ext. intros c Hcc.
    apply elem_of_seqZ in Hr, Hcc.
    rewrite (full_matrix_gram base_DIF temporal p m) by (auto; lia).
    reflexivity.
Qed.

(** C9 fails as stated: with three temporal functions that overlap at the
    single observation and [p = 1], the band drops the pair of blocks 0 and
    2, and the implied full matrix (all ones on the three central diagonals)
    has [v^T M v = -41] for [v = (5, -7, 5)]. *)
Lemma implied_matrix_not_psd :
  wf ones_base /\ wf ones_temporal /\
  shape1 ones_temporal = shape1 ones_base /\
  exists banded,
    build_banded ones_base ones_temporal 1 = Done banded /\
    (quad_form (full_matrix banded)
       (shape0 ones_temporal * shape0 ones_base) [5; -7; 5] < 0)%R.
Proof.
  split; [split; [reflexivity|repeat constructor]|].
  split; [split; [reflexivity|repeat constructor]|].
  split; [reflexivity|].
  eexists. split; [vm_compute; reflexivity|].
  vm_compute. lra.
Qed.

Lemma split_temporal_wf : wf split_temporal.
Proof. split; [reflexivity|]. repeat constructor. Qed.

Lemma split_temporal_support : band_covers_support split_temporal 0.
Proof.
  intros s t kt Hs Ht Hkt Hfar.
  change (shape0 split_temporal) with 2 in *.
  change (shape1 split_temporal) with 2 in *.
  assert (Hc : (s = 0 /\ t = 1) \/ (s = 1 /\ t = 0)) by lia.
  assert (Hk : kt = 0 \/ kt = 1) by lia.
  destruct Hc as [[-> ->]|[-> ->]], Hk as [-> | ->]; vm_compute; lra.
Qed.

(** C9, amended: for every valid input with [p >= 0] whose integers
    (computed from [p] and the shapes) fit a C [int], the full matrix
    reconstructed from the band of [build_banded] is symmetric; it is
    positive semi-definite whenever the band parameter covers the support of
    the temporal basis (temporal functions more than [p] blocks apart are
    never both nonzero at one observation), the case in which the band keeps
    the whole sum of outer products. *)
Theorem implied_matrix_symmetric_psd base_DIF temporal p :
  band_ints_in_range base_DIF temporal p ->
  wf base_DIF -> wf temporal ->
  shape1 temporal = shape1 base_DIF ->
  0 <= p ->
  exists banded,
    build_banded base_DIF temporal p = Done banded /\
    (forall row col,
       full_matrix banded row col = full_matrix banded col row) /\
    (band_covers_support temporal p ->
     forall v,
       (0 <= quad_form (full_matrix banded)
                       (shape0 temporal * shape0 base_DIF) v)%R).
Proof.
  intros _ Wb Wt Hcols Hp.
  pose proof (wf_shape_nonneg _ Wb) as Hn.
  destruct (build_banded_cells base_DIF temporal p Wb Wt ltac:(lia) ltac:(nia))
    as (m & E & _).
  exists m. split; [exact E|]. split.
  - intros row col. apply full_matrix_sym.
  - intros Hsup v. apply (quad_form_nonneg base_DIF temporal p); auto.
Qed.

Lemma implied_matrix_symmetric_psd_witness :
  band_ints_in_range ex_base split_temporal 0 /\
  wf ex_base /\ wf split_temporal /\ shape1 split_temporal = shape1 ex_base /\
  0 <= 0 /\ band_covers_support split_temporal 0 /\
  exists banded,
    build_banded ex_base split_temporal 0 = Done banded /\
    (forall row col,
       full_matrix banded row col = full_matrix banded col row) /\
    (band_covers_support split_temporal 0 ->
     forall v,
       (0 <= quad_form (full_matrix banded)
                       (shape0 split_temporal * shape0 ex_base) v)%R).
Proof.
  split; [int_range_tac|].
  split; [exact ex_base_wf|]. split; [exact split_temporal_wf|].
  split; [reflexivity|]. split; [lia|]. split; [exact split_temporal_support|].
  apply (implied_matrix_symmetric_psd ex_base split_temporal 0);
    [int_range_tac|exact ex_base_wf|exact split_temporal_wf|reflexivity|lia].
Defined.

(** ** The local-window kernel *)



(** X13: a window that starts left of the first temporal function is not
    clipped: its first index is negative, passes the guard [n_t <= p] and is
    used to read [temporal].  The integers computed from [deg], the shapes
    and the windows are taken to fit a C [int], so that the allocation
    succeeds and the read is reached. *)
Lemma local_window_faults_left_of_range nl rest base_DIF temporal deg :
  degree_ints_in_range base_DIF temporal deg ->
  window_ints_in_range (nl :: rest) base_DIF temporal deg ->
  wf base_DIF -> wf temporal ->
  0 < shape0 base_DIF -> 0 < shape1 base_DIF ->
  0 <= deg -> nl - deg < 0 ->
  build_banded_3 (nl :: rest) base_DIF temporal deg = Fault OutOfBounds.
Proof.
  intros _ _ Wb Wt Hn Hd Hdeg Hnl. unfold build_banded_3. cbv zeta.
  pose proof (wf_shape_nonneg _ Wt) as Hnt.
  destruct (np_zeros_spec ((deg + 1) * shape0 base_DIF)
              (shape0 temporal * shape0 base_DIF) ltac:(nia) ltac:(nia))
    as (z & -> & Wz & Z0 & Z1 & _). simpl.
  apply for_range_fault_first; [lia|]. simpl.
  apply for_range_fault_first; [lia|].
  destruct (Z.leb_spec (shape0 temporal) (nl - deg)); [lia|].
  simpl.
  apply for_range_fault_first; [lia|].
  destruct (Z.leb_spec (shape0 temporal) (nl - deg)); [lia|].
  apply for_range_fault_first; [lia|].
  apply for_range_fault_first; [lia|].
  rewrite (mget_out temporal (nl - deg) 0) by lia. reflexivity.
Qed.

(** *** The cubic case with a single spatial coefficient *)



Lemma vget_nleft_at nlefts it :
  0 <= it < Z.of_nat (length nlefts) ->
  vget nlefts it = Done (nleft_at nlefts it).
Proof.
  intros Hit. unfold nleft_at, vget.
  destruct (Z.leb_spec 0 it); [|lia].
  destruct (lookup_lt_is_Some_2 nlefts (Z.to_nat it)) as [x ->]; [lia|].
  reflexivity.
Qed.









(** C3 (evaluation at failing inputs): with [deg = 1] the literal [4] of
    the offset formula sends the first accumulation to band row 3 of a
    two-row band; with [deg = 3] and two spatial coefficients the diagonal
    block [p = q] is written for [j > i] as well, to band row 8 of an
    eight-row band.  In both cases [build_banded] returns a matrix on the
    same basis matrices and [build_banded_3] has no defined result. *)
Theorem local_window_offset_out_of_band :
  build_banded_3 [1] lw_base1 lw_temporal2 1 = Fault OutOfBounds /\
  (exists m, build_banded lw_base1 lw_temporal2 1 = Done m) /\
  build_banded_3 [3] lw_base2 lw_temporal4 3 = Fault OutOfBounds /\
  (exists m, build_banded lw_base2 lw_temporal4 3 = Done m).
Proof.
  split; [reflexivity|]. split; [eexists; vm_compute; reflexivity|].
  split; [reflexivity|]. eexists; vm_compute; reflexivity.
Qed.

(** C6 (evaluation at a failing input): for [nlefts[0] = 2] and [deg = 3]
    the window starts at temporal index [-1]; only indices [>= n_t] are
    skipped, so [temporal[-1, 0]] is read and column [-1] of the band is
    written. *)
Theorem local_window_not_clamped_below :
  build_banded_3 [2] lw_base1 lw_temporal_left 3 = Fault OutOfBounds /\
  mget lw_temporal_left (2 - 3) 0 = Fault OutOfBounds.
Proof. split; reflexivity. Qed.

(** With [deg = 4] and the window clipped on the right no access leaves the
    band, and the returned band is shifted by one row: its main diagonal is
    not where the convention puts it. *)
Lemma local_window_quartic_shifted :
  exists b3 b1,
    build_banded_3 [4] lw_base1 lw_temporal4 4 = Done b3 /\
    build_banded lw_base1 lw_temporal4 4 = Done b1 /\
    mget (to_block_offset b3) 5 0 = Done 0%R /\
    mget b1 5 0 = Done (0 + 1 * 1 * 1 * 1)%R.
Proof.
  eexists. eexists. split; [vm_compute; reflexivity|].
  split; [vm_compute; reflexivity|].
  split; vm_compute; f_equal; lra.
Qed.

(** * Further properties of the kernels *)

(** ** More loop rules *)

Lemma foldM_app {S : Type} (body : Z -> S -> outcome S) l1 l2 (s : S) :
  foldM body (l1 ++ l2) s = (s1 ← foldM body l1 s; foldM body l2 s1).
Proof.
  revert s. induction l1 as [|a l IH]; intros s; simpl; [reflexivity|].
  destruct (body a s) as [t|e]; simpl; [apply IH|reflexivity].
Qed.

Lemma for_range_split {S : Type} lo mid hi (s : S) body :
  lo <= mid -> mid <= hi ->
  for_range lo hi s body =
  (s1 ← for_range lo mid s body; for_range mid hi s1 body).
Proof.
  intros H1 H2. unfold for_range.
  replace (hi - lo) with ((mid - lo) + (hi - mid)) by lia.
  rewrite seqZ_app by lia. rewrite foldM_app.
  replace (lo + (mid - lo)) with mid by lia. reflexivity.
Qed.

(** The iterations before [i] succeed and keep [P]; iteration [i] faults. *)
Lemma for_range_fault_at {S : Type} (P : Z -> S -> Prop) lo i hi (s : S) body e :
  lo <= i < hi ->
  P lo s ->
  (forall j t, lo <= j < i -> P j t ->
     exists t', body j t = Done t' /\ P (j + 1) t') ->
  (forall t, P i t -> body i t = Fault e) ->
  for_range lo hi s body = Fault e.
Proof.
  intros Hi H0 Hstep Hfault.
  rewrite (for_range_split lo i hi) by lia.
  destruct (for_range_inv P lo i s body) as (s1 & -> & H1); [lia|exact H0|exact Hstep|].
  simpl. apply for_range_fault_first; [lia|]. apply Hfault. exact H1.
Qed.

(** Partial-correctness rule: what holds of the state when the loop ends. *)
Lemma for_range_done {S : Type} (P : S -> Prop) lo hi (s s' : S) body :
  P s ->
  (forall i t t', lo <= i < hi -> P t -> body i t = Done t' -> P t') ->
  for_range lo hi s body = Done s' ->
  P s'.
Proof.
  destruct (Z.le_gt_cases hi lo) as [Hemp|Hlt].
  { intros H0 _. rewrite for_range_empty by lia. intros [= <-]. exact H0. }
  remember (Z.to_nat (hi - lo)) as n eqn:Hn.
  revert lo s Hlt Hn. induction n as [|n IH]; intros lo s Hlt Hn H0 Hstep; [lia|].
  rewrite for_range_step by lia.
  destruct (body lo s) as [t|e] eqn:Hb; simpl; [|discriminate].
  assert (Ht : P t) by (apply (Hstep lo s t); auto; lia).
  destruct (Z.le_gt_cases hi (lo + 1)) as [Hlast|Hmore].
  - rewrite for_range_empty by lia. intros [= <-]. exact Ht.
  - apply (IH (lo + 1) t); auto; try lia.
    intros i u u' Hi. apply Hstep. lia.
Qed.

(** A loop that ends has run each of its iterations to the end. *)
Lemma for_range_done_iteration {S : Type} lo hi (s s' : S) body i :
  lo <= i < hi ->
  for_range lo hi s body = Done s' ->
  exists t t', body i t = Done t'.
Proof.
  intros Hi. rewrite (for_range_split lo i hi) by lia.
  destruct (for_range lo i s body) as [t|e]; simpl; [|discriminate].
  rewrite for_range_step by lia.
  destruct (body i t) as [t'|e] eqn:Hb; simpl; [|discriminate].
  intros _. eauto.
Qed.

Lemma wf_shape1_nonneg m : wf m -> 0 < shape0 m -> 0 <= shape1 m.
Proof.
  intros Wm H0. destruct (wf_row m 0 Wm ltac:(lia)) as (r & _ & Hl). lia.
Qed.

(** ** Degenerate inputs of the dense and the indexed kernel *)

(** An enumeration whose accumulations all add zero returns the zero band. *)
Lemma band_loops_all_zero n_t n_coeffs p row_of inner :
  0 <= n_t -> 0 <= n_coeffs -> 0 <= (p + 1) * n_coeffs + 1 ->
  (forall it, row_of it = (p + 1) * n_coeffs + 1 - 1 - it) ->
  (forall it_t it_s jt_t jt_s k c m,
     wf m -> 0 <= k < shape0 m -> 0 <= c < shape1 m ->
     0 <= jt_t -> jt_t <= it_t -> it_t < n_t -> it_t - jt_t <= p ->
     0 <= it_s < n_coeffs -> 0 <= jt_s < n_coeffs ->
     exists m', inner it_t it_s jt_t jt_s k c m = Done m' /\
                adds_to m m' k c 0%R) ->
  band_loops n_t n_coeffs p ((p + 1) * n_coeffs + 1) row_of inner =
  np_zeros ((p + 1) * n_coeffs + 1) (n_t * n_coeffs).
Proof.
  intros Hnt Hnc Hbw Hrow Hinner.
  destruct (band_loops_spec n_t n_coeffs p row_of inner (fun _ _ _ _ => 0%R)
              Hnt Hnc Hbw Hrow Hinner) as (m & E & W & S0 & S1 & Hc).
  destruct (np_zeros_spec ((p + 1) * n_coeffs + 1) (n_t * n_coeffs) Hbw
              ltac:(nia)) as (z & Ez & Wz & Z0 & Z1 & Zc).
  rewrite E, Ez. f_equal. apply ndarray_ext; auto; try congruence.
  intros i j Hi Hj. rewrite Hc, Zc by lia.
  unfold cell_value, entry_value. cbv zeta.
  repeat (destruct (_ <? _)); reflexivity.
Qed.

(** X1: without observations ([n_data = 0]) [build_banded] and
    [build_banded_3] return the all-zero band of their shape, whatever the
    temporal matrix and the left-knot array hold, as long as the integers
    computed from the parameter and the shapes fit a C [int]. *)
Theorem no_observations_zero_band nlefts base_DIF temporal p :
  band_ints_in_range base_DIF temporal p ->
  degree_ints_in_range base_DIF temporal p ->
  wf base_DIF -> wf temporal ->
  shape1 base_DIF = 0 ->
  0 <= p ->
  build_banded base_DIF temporal p =
    np_zeros ((p + 1) * shape0 base_DIF + 1) (shape0 temporal * shape0 base_DIF) /\
  build_banded_3 nlefts base_DIF temporal p =
    np_zeros ((p + 1) * shape0 base_DIF) (shape0 temporal * shape0 base_DIF).
Proof.
  intros _ _ Wb Wt Hd Hp.
  pose proof (wf_shape_nonneg _ Wb). pose proof (wf_shape_nonneg _ Wt).
  split.
  - rewrite build_banded_unfold.
    apply band_loops_all_zero; auto; try nia.
    intros it_t it_s jt_t jt_s k c m Wm _ _ _ _ _ _ _ _.
    exists m. rewrite Hd. rewrite for_range_empty by lia.
    split; [reflexivity|]. apply adds_to_refl; exact Wm.
  - unfold build_banded_3. cbv zeta. rewrite Hd.
    destruct (np_zeros ((p + 1) * shape0 base_DIF)
                (shape0 temporal * shape0 base_DIF)) as [z|e]; simpl;
      [|reflexivity].
    apply for_range_empty. lia.
Qed.

Lemma no_observations_zero_band_witness :
  band_ints_in_range ex_base_no_obs ex_temporal_no_obs 1 /\
  degree_ints_in_range ex_base_no_obs ex_temporal_no_obs 1 /\
  wf ex_base_no_obs /\ wf ex_temporal_no_obs /\
  shape1 ex_base_no_obs = 0 /\ 0 <= 1 /\
  build_banded ex_base_no_obs ex_temporal_no_obs 1 =
    np_zeros ((1 + 1) * shape0 ex_base_no_obs + 1)
             (shape0 ex_temporal_no_obs * shape0 ex_base_no_obs) /\
  build_banded_3 [] ex_base_no_obs ex_temporal_no_obs 1 =
    np_zeros ((1 + 1) * shape0 ex_base_no_obs)
             (shape0 ex_temporal_no_obs * shape0 ex_base_no_obs).
Proof.
  split; [int_range_tac|].
  split; [int_range_tac|].
  assert (Wb : wf ex_base_no_obs) by (split; [reflexivity|repeat constructor]).
  assert (Wt : wf ex_temporal_no_obs) by (split; [reflexivity|repeat constructor]).
  split; [exact Wb|]. split; [exact Wt|]. split; [reflexivity|]. split; [lia|].
  apply (no_observations_zero_band [] ex_base_no_obs ex_temporal_no_obs 1);
    [int_range_tac|int_range_tac|exact Wb|exact Wt|reflexivity|lia].
Defined.

(** X2: when the combined index range is empty ([n_t = 0] or
    [n_coeffs = 0]) [build_banded] and [build_banded_2] return the band
    without columns; the grouping arrays are not read at all.  The integers
    computed from [p] and the shapes are taken to fit a C [int]. *)
Theorem empty_index_range_empty_band base_DIF temporal p nonzero_inds starts :
  band_ints_in_range base_DIF temporal p ->
  wf base_DIF -> wf temporal ->
  shape0 temporal = 0 \/ shape0 base_DIF = 0 ->
  0 <= p ->
  build_banded base_DIF temporal p =
    np_zeros ((p + 1) * shape0 base_DIF + 1) 0 /\
  build_banded_2 base_DIF temporal p nonzero_inds starts =
    np_zeros ((p + 1) * shape0 base_DIF + 1) 0.
Proof.
  intros _ Wb Wt Hempty Hp.
  pose proof (wf_shape_nonneg _ Wb). pose proof (wf_shape_nonneg _ Wt).
  assert (HN : shape0 temporal * shape0 base_DIF = 0) by nia.
  rewrite build_banded_unfold, build_banded_2_unfold. rewrite <- HN.
  split; apply band_loops_all_zero; auto; try nia; try (intros; lia).
Qed.

Lemma empty_index_range_empty_band_witness :
  band_ints_in_range ex_base ex_temporal_no_rows 1 /\
  wf ex_base /\ wf ex_temporal_no_rows /\
  (shape0 ex_temporal_no_rows = 0 \/ shape0 ex_base = 0) /\ 0 <= 1 /\
  build_banded ex_base ex_temporal_no_rows 1 =
    np_zeros ((1 + 1) * shape0 ex_base + 1) 0 /\
  build_banded_2 ex_base ex_temporal_no_rows 1 [] [] =
    np_zeros ((1 + 1) * shape0 ex_base + 1) 0.
Proof.
  split; [int_range_tac|].
  assert (Wt : wf ex_temporal_no_rows) by (split; [reflexivity|constructor]).
  split; [exact ex_base_wf|]. split; [exact Wt|].
  split; [left; reflexivity|]. split; [lia|].
  apply (empty_index_range_empty_band ex_base ex_temporal_no_rows 1 [] []);
    [int_range_tac|exact ex_base_wf|exact Wt|left; reflexivity|lia].
Defined.

(** ** Cells of the band that hold no retained entry *)

Lemma cell_value_top_row n_coeffs p F c :
  0 < n_coeffs -> 0 <= p ->
  cell_value n_coeffs p ((p + 1) * n_coeffs + 1) F 0 c = 0%R.
Proof.
  intros Hn Hp. unfold cell_value. cbv zeta.
  replace (c - ((p + 1) * n_coeffs + 1 - 1 - 0)) with (c - (p + 1) * n_coeffs)
    by lia.
  destruct (Z.ltb_spec (c - (p + 1) * n_coeffs) 0); [reflexivity|].
  apply entry_value_out.
  replace c with (c - (p + 1) * n_coeffs + (p + 1) * n_coeffs) at 1 by lia.
  rewrite Z.div_add by lia. lia.
Qed.

Lemma cell_value_corner n_coeffs p bandw F k c :
  c < bandw - 1 - k -> cell_value n_coeffs p bandw F k c = 0%R.
Proof.
  intros H. unfold cell_value. cbv zeta.
  destruct (Z.ltb_spec (c - (bandw - 1 - k)) 0); [reflexivity|lia].
Qed.

(** X3: the first row of the band returned by [build_banded] and by
    [build_banded_2] is entirely zero: the offset [(p+1)*n_coeffs] it stands
    for always joins blocks [p+1] apart, so the [+ 1] of the bandwidth is a
    row that is never filled.  The integers computed from [p], the shapes
    and the offsets are taken to fit a C [int]. *)
Theorem top_band_row_is_zero base_DIF temporal p nonzero_inds starts :
  band_ints_in_range base_DIF temporal p ->
  grouping_ints_in_range temporal starts ->
  wf base_DIF -> wf temporal ->
  shape1 temporal = shape1 base_DIF ->
  0 <= p ->
  grouping_readable base_DIF temporal p nonzero_inds starts ->
  exists b1 b2,
    build_banded base_DIF temporal p = Done b1 /\
    build_banded_2 base_DIF temporal p nonzero_inds starts = Done b2 /\
    forall c, 0 <= c < shape0 temporal * shape0 base_DIF ->
      mget b1 0 c = Done 0%R /\ mget b2 0 c = Done 0%R.
Proof.
  intros _ _ Wb Wt Hcols Hp Hgrp.
  pose proof (wf_shape_nonneg _ Wb) as Hn.
  destruct (build_banded_cells base_DIF temporal p Wb Wt ltac:(lia) ltac:(nia))
    as (m1 & E1 & W1 & S10 & S11 & C1).
  destruct (build_banded_2_cells base_DIF temporal p nonzero_inds starts
              Wb Wt ltac:(nia) Hgrp)
    as (m2 & E2 & W2 & S20 & S21 & C2).
  exists m1, m2. split; [exact E1|]. split; [exact E2|].
  intros c Hc.
  assert (0 < shape0 base_DIF).
  { destruct (Z.eq_dec (shape0 base_DIF) 0) as [E0|]; [|lia].
    rewrite E0, Z.mul_0_r in Hc. lia. }
  rewrite !mget_wf by (auto; nia).
  rewrite C1, C2 by nia. rewrite !cell_value_top_row by lia. auto.
Qed.

Lemma top_band_row_is_zero_witness :
  band_ints_in_range ex_base ex_temporal 1 /\
  grouping_ints_in_range ex_temporal ex_starts /\
  wf ex_base /\ wf ex_temporal /\ shape1 ex_temporal = shape1 ex_base /\
  0 <= 1 /\ grouping_readable ex_base ex_temporal 1 ex_nonzero_inds ex_starts /\
  exists b1 b2,
    build_banded ex_base ex_temporal 1 = Done b1 /\
    build_banded_2 ex_base ex_temporal 1 ex_nonzero_inds ex_starts = Done b2 /\
    forall c, 0 <= c < shape0 ex_temporal * shape0 ex_base ->
      mget b1 0 c = Done 0%R /\ mget b2 0 c = Done 0%R.
Proof.
  split; [int_range_tac|].
  split; [int_range_tac|].
  assert (G : grouping_readable ex_base ex_temporal 1 ex_nonzero_inds ex_starts).
  { apply grouping_exact_readable; [reflexivity|exact ex_grouping_exact]. }
  split; [exact ex_base_wf|]. split; [exact ex_temporal_wf|].
  split; [reflexivity|]. split; [lia|]. split; [exact G|].
  apply (top_band_row_is_zero ex_base ex_temporal 1 ex_nonzero_inds ex_starts);
    [int_range_tac|int_range_tac|exact ex_base_wf|exact ex_temporal_wf|reflexivity|lia|exact G].
Defined.

(** X4: the cells of the band left of the first column of their offset,
    [(k, c)] with [c < bandwidth-1-k], stand for no matrix entry; both
    kernels leave them at zero.  The integers computed from [p], the shapes
    and the offsets are taken to fit a C [int]. *)
Theorem band_corner_cells_zero base_DIF temporal p nonzero_inds starts :
  band_ints_in_range base_DIF temporal p ->
  grouping_ints_in_range temporal starts ->
  wf base_DIF -> wf temporal ->
  shape1 temporal = shape1 base_DIF ->
  0 <= p ->
  grouping_readable base_DIF temporal p nonzero_inds starts ->
  exists b1 b2,
    build_banded base_DIF temporal p = Done b1 /\
    build_banded_2 base_DIF temporal p nonzero_inds starts = Done b2 /\
    forall k c,
      0 <= k -> 0 <= c < shape0 temporal * shape0 base_DIF ->
      c < (p + 1) * shape0 base_DIF + 1 - 1 - k ->
      mget b1 k c = Done 0%R /\ mget b2 k c = Done 0%R.
Proof.
  intros _ _ Wb Wt Hcols Hp Hgrp.
  pose proof (wf_shape_nonneg _ Wb) as Hn.
  destruct (build_banded_cells base_DIF temporal p Wb Wt ltac:(lia) ltac:(nia))
    as (m1 & E1 & W1 & S10 & S11 & C1).
  destruct (build_banded_2_cells base_DIF temporal p nonzero_inds starts
              Wb Wt ltac:(nia) Hgrp)
    as (m2 & E2 & W2 & S20 & S21 & C2).
  exists m1, m2. split; [exact E1|]. split; [exact E2|].
  intros k c Hk Hc Hcorner.
  rewrite !mget_wf by (auto; lia).
  rewrite C1, C2 by lia. rewrite !cell_value_corner by lia. auto.
Qed.

Lemma band_corner_cells_zero_witness :
  band_ints_in_range ex_base ex_temporal 1 /\
  grouping_ints_in_range ex_temporal ex_starts /\
  wf ex_base /\ wf ex_temporal /\ shape1 ex_temporal = shape1 ex_base /\
  0 <= 1 /\ grouping_readable ex_base ex_temporal 1 ex_nonzero_inds ex_starts /\
  exists b1 b2,
    build_banded ex_base ex_temporal 1 = Done b1 /\
    build_banded_2 ex_base ex_temporal 1 ex_nonzero_inds ex_starts = Done b2 /\
    forall k c,
      0 <= k -> 0 <= c < shape0 ex_temporal * shape0 ex_base ->
      c < (1 + 1) * shape0 ex_base + 1 - 1 - k ->
      mget b1 k c = Done 0%R /\ mget b2 k c = Done 0%R.
Proof.
  split; [int_range_tac|].
  split; [int_range_tac|].
  assert (G : grouping_readable ex_base ex_temporal 1 ex_nonzero_inds ex_starts).
  { apply grouping_exact_readable; [reflexivity|exact ex_grouping_exact]. }
  split; [exact ex_base_wf|]. split; [exact ex_temporal_wf|].
  split; [reflexivity|]. split; [lia|]. split; [exact G|].
  apply (band_corner_cells_zero ex_base ex_temporal 1 ex_nonzero_inds ex_starts);
    [int_range_tac|int_range_tac|exact ex_base_wf|exact ex_temporal_wf|reflexivity|lia|exact G].
Defined.

(** ** Reading past the temporal matrix *)

(** X5: when [temporal] has fewer observation columns than [base_DIF] and
    there is at least one band cell to fill, [build_banded] reads
    [temporal[0, kt]] for a [kt] outside the matrix while filling the very
    first cell: the call has no defined result.  The integers computed from
    [p] and the shapes are taken to fit a C [int], so that the allocation
    succeeds. *)
Theorem fewer_temporal_columns_out_of_bounds base_DIF temporal p :
  band_ints_in_range base_DIF temporal p ->
  wf base_DIF -> wf temporal ->
  0 < shape0 temporal -> 0 < shape0 base_DIF ->
  0 <= p ->
  shape1 temporal < shape1 base_DIF ->
  build_banded base_DIF temporal p = Fault OutOfBounds.
Proof.
  intros _ Wb Wt Hnt Hn Hp Hcols.
  pose proof (wf_shape1_nonneg _ Wt Hnt) as Hd.
  unfold build_banded. cbv zeta.
  destruct (np_zeros_spec ((p + 1) * shape0 base_DIF + 1)
              (shape0 temporal * shape0 base_DIF) ltac:(nia) ltac:(nia))
    as (z & -> & Wz & Z0 & Z1 & _). simpl.
  apply for_range_fault_first; [nia|].
  apply for_range_fault_first; [nia|].
  replace (0 + 0) with 0 by lia.
  rewrite Z.quot_0_l, Z.rem_0_l by lia.
  destruct (Z.ltb_spec p (Z.abs (0 - 0))); [lia|].
  apply (for_range_fault_at (fun _ m => same_frame z m) 0 (shape1 temporal));
    [lia|apply same_frame_refl; auto| |].
  - intros kt t Hkt (Wt' & T0 & T1).
    rewrite !mget_wf by (auto; lia). simpl.
    destruct (madd_at_spec t ((p + 1) * shape0 base_DIF + 1 - 1 - 0) 0
                (mval temporal 0 kt * mval base_DIF 0 kt
                 * mval temporal 0 kt * mval base_DIF 0 kt)%R)
      as (t' & -> & (Ft & _)); auto; try nia.
    exists t'. split; [reflexivity|].
    eapply same_frame_trans; [|exact Ft]. split; auto.
  - intros t _. rewrite (mget_out temporal 0 (shape1 temporal)) by lia.
    reflexivity.
Qed.

Lemma fewer_temporal_columns_out_of_bounds_witness :
  band_ints_in_range ex_base ex_temporal_narrow 1 /\
  wf ex_base /\ wf ex_temporal_narrow /\
  0 < shape0 ex_temporal_narrow /\ 0 < shape0 ex_base /\ 0 <= 1 /\
  shape1 ex_temporal_narrow < shape1 ex_base /\
  build_banded ex_base ex_temporal_narrow 1 = Fault OutOfBounds.
Proof.
  split; [int_range_tac|].
  assert (Wt : wf ex_temporal_narrow) by (split; [reflexivity|repeat constructor]).
  split; [exact ex_base_wf|]. split; [exact Wt|].
  split; [reflexivity|]. split; [reflexivity|]. split; [lia|].
  split; [reflexivity|].
  apply (fewer_temporal_columns_out_of_bounds ex_base ex_temporal_narrow 1);
    [int_range_tac|exact ex_base_wf|exact Wt|reflexivity|reflexivity|lia|reflexivity].
Defined.

(** ** Order of the observations, and the full band *)

(** X6: in exact arithmetic the band does not depend on the order in which
    the observations are stored: assembling from the columns [U] and from
    any rearrangement [U'] of them gives the same matrix, as long as the
    integers computed from [p] and the shapes fit a C [int]. *)
Theorem observation_order_irrelevant base_DIF temporal p (U U' : list Z) :
  band_ints_in_range (take_columns base_DIF U) (take_columns temporal U) p ->
  band_ints_in_range (take_columns base_DIF U') (take_columns temporal U') p ->
  wf base_DIF -> wf temporal ->
  0 <= p ->
  valid_columns base_DIF U -> valid_columns temporal U ->
  U ≡ₚ U' ->
  exists banded,
    build_banded (take_columns base_DIF U) (take_columns temporal U) p
      = Done banded /\
    build_banded (take_columns base_DIF U') (take_columns temporal U') p
      = Done banded.
Proof.
  intros _ _ Wb Wt Hp Vb Vt Hperm.
  pose proof (wf_shape_nonneg _ Wb) as Hn.
  assert (Vb' : valid_columns base_DIF U').
  { intros c Hc. apply Vb. rewrite Hperm. exact Hc. }
  assert (Vt' : valid_columns temporal U').
  { intros c Hc. apply Vt. rewrite Hperm. exact Hc. }
  destruct (build_banded_cells (take_columns base_DIF U) (take_columns temporal U) p)
    as (m1 & E1 & W1 & S10 & S11 & C1);
    auto using take_columns_wf; [simpl; lia|simpl; nia|].
  destruct (build_banded_cells (take_columns base_DIF U') (take_columns temporal U') p)
    as (m2 & E2 & W2 & S20 & S21 & C2);
    auto using take_columns_wf; [simpl; lia|simpl; nia|].
  simpl in *.
  exists m1. split; [exact E1|]. rewrite E2. f_equal.
  apply ndarray_ext; auto; try congruence.
  intros i j Hi Hj. rewrite C2, C1 by lia.
  apply (cell_value_ext (shape0 temporal)); auto; try lia.
  intros it_t it_s jt_t jt_s _ _ _ _.
  rewrite !dense_sum_take_columns by auto.
  symmetry. apply sum_over_perm. exact Hperm.
Qed.

Lemma observation_order_irrelevant_witness :
  band_ints_in_range (take_columns ex_base [0; 1]) (take_columns ex_temporal [0; 1]) 1 /\
  band_ints_in_range (take_columns ex_base [1; 0]) (take_columns ex_temporal [1; 0]) 1 /\
  wf ex_base /\ wf ex_temporal /\ 0 <= 1 /\
  valid_columns ex_base [0; 1] /\ valid_columns ex_temporal [0; 1] /\
  [0; 1] ≡ₚ [1; 0] /\
  exists banded,
    build_banded (take_columns ex_base [0; 1]) (take_columns ex_temporal [0; 1]) 1
      = Done banded /\
    build_banded (take_columns ex_base [1; 0]) (take_columns ex_temporal [1; 0]) 1
      = Done banded.
Proof.
  split; [int_range_tac|]. split; [int_range_tac|].
  assert (Vb : valid_columns ex_base [0; 1]).
  { intros c. rewrite !elem_of_cons, elem_of_nil. simpl. lia. }
  assert (Vt : valid_columns ex_temporal [0; 1]).
  { intros c. rewrite !elem_of_cons, elem_of_nil. simpl. lia. }
  assert (Pm : [0; 1] ≡ₚ [1; 0]) by apply perm_swap.
  split; [exact ex_base_wf|]. split; [exact ex_temporal_wf|]. split; [lia|].
  split; [exact Vb|]. split; [exact Vt|]. split; [exact Pm|].
  apply (observation_order_irrelevant ex_base ex_temporal 1 [0; 1] [1; 0]);
    [int_range_tac|int_range_tac|exact ex_base_wf|exact ex_temporal_wf|lia|exact Vb|exact Vt
    |exact Pm].
Defined.

(** X7: with a band parameter of at least [n_t - 1] no block pair is
    dropped, and the full matrix implied by the band of [build_banded] is
    positive semi-definite for every pair of basis matrices, as long as the
    integers computed from [p] and the shapes fit a C [int]. *)
Theorem full_band_is_psd base_DIF temporal p :
  band_ints_in_range base_DIF temporal p ->
  wf base_DIF -> wf temporal ->
  shape1 temporal = shape1 base_DIF ->
  0 <= p -> shape0 temporal - 1 <= p ->
  exists banded,
    build_banded base_DIF temporal p = Done banded /\
    forall v,
      (0 <= quad_form (full_matrix banded)
                      (shape0 temporal * shape0 base_DIF) v)%R.
Proof.
  intros _ Wb Wt Hcols Hp Hfull.
  pose proof (wf_shape_nonneg _ Wb) as Hn.
  destruct (build_banded_cells base_DIF temporal p Wb Wt ltac:(lia) ltac:(nia))
    as (m & E & _).
  exists m. split; [exact E|]. intros v.
  apply (quad_form_nonneg base_DIF temporal p); auto.
  intros s t kt Hs Ht _ Hfar. lia.
Qed.

Lemma full_band_is_psd_witness :
  band_ints_in_range ones_base ones_temporal 2 /\
  wf ones_base /\ wf ones_temporal /\
  shape1 ones_temporal = shape1 ones_base /\
  0 <= 2 /\ shape0 ones_temporal - 1 <= 2 /\
  exists banded,
    build_banded ones_base ones_temporal 2 = Done banded /\
    forall v,
      (0 <= quad_form (full_matrix banded)
                      (shape0 ones_temporal * shape0 ones_base) v)%R.
Proof.
  split; [int_range_tac|].
  assert (Wb : wf ones_base) by (split; [reflexivity|repeat constructor]).
  assert (Wt : wf ones_temporal) by (split; [reflexivity|repeat constructor]).
  split; [exact Wb|]. split; [exact Wt|]. split; [reflexivity|].
  split; [lia|]. split; [simpl; lia|].
  apply (full_band_is_psd ones_base ones_temporal 2);
    [int_range_tac|exact Wb|exact Wt|reflexivity|lia|simpl; lia].
Defined.

(** ** The indexed kernel in general *)

(** X8: with a readable grouping, every retained entry of the band of
    [build_banded_2] is the sum of the four-factor product over the
    observations listed in the slice of its block pair
    [(col // n_coeffs) * n_t + row // n_coeffs], each counted as often as it
    is listed; observations missing from the slice are left out.  The
    integers computed from [p], the shapes and the offsets are taken to fit
    a C [int]. *)
Theorem build_banded_2_entries base_DIF temporal p nonzero_inds starts :
  band_ints_in_range base_DIF temporal p ->
  grouping_ints_in_range temporal starts ->
  wf base_DIF -> wf temporal ->
  0 <= p ->
  grouping_readable base_DIF temporal p nonzero_inds starts ->
  exists banded,
    build_banded_2 base_DIF temporal p nonzero_inds starts = Done banded /\
    wf banded /\
    shape0 banded = (p + 1) * shape0 base_DIF + 1 /\
    shape1 banded = shape0 temporal * shape0 base_DIF /\
    forall row col,
      0 <= row -> row <= col -> col < shape0 temporal * shape0 base_DIF ->
      col - row < (p + 1) * shape0 base_DIF + 1 ->
      Z.abs (col / shape0 base_DIF - row / shape0 base_DIF) <= p ->
      exists sl,
        group_slice nonzero_inds starts
          (col / shape0 base_DIF * shape0 temporal + row / shape0 base_DIF)
          = Done sl /\
        mget banded ((p + 1) * shape0 base_DIF + 1 - 1 - (col - row)) col =
        Done (sum_over sl (fun o =>
                mval temporal (col / shape0 base_DIF) o
                * mval base_DIF (col mod shape0 base_DIF) o
                * mval temporal (row / shape0 base_DIF) o
                * mval base_DIF (row mod shape0 base_DIF) o)%R).
Proof.
  intros _ _ Wb Wt Hp Hgrp.
  pose proof (wf_shape_nonneg _ Wb) as Hn.
  destruct (build_banded_2_cells base_DIF temporal p nonzero_inds starts
              Wb Wt ltac:(nia) Hgrp)
    as (m & E & W & S0 & S1 & Hc).
  exists m. split; [exact E|]. split; [exact W|].
  split; [exact S0|]. split; [exact S1|].
  intros row col H0 H1 H2 H3 H4.
  destruct (block_range (shape0 temporal) (shape0 base_DIF) row col)
    as (_ & Hr & Hcb & Hle & _); auto.
  destruct (Hgrp (col / shape0 base_DIF) (row / shape0 base_DIF))
    as (sl & Hsl & _); try lia.
  exists sl. split; [exact Hsl|].
  rewrite mget_wf by (auto; lia). f_equal.
  rewrite Hc by lia. rewrite cell_value_entry by lia.
  rewrite entry_value_in by lia.
  unfold indexed_sum, slice_or_nil. rewrite Hsl. reflexivity.
Qed.

Lemma build_banded_2_entries_witness :
  band_ints_in_range ex_base ex_temporal 1 /\
  grouping_ints_in_range ex_temporal ex_starts /\
  wf ex_base /\ wf ex_temporal /\ 0 <= 1 /\
  grouping_readable ex_base ex_temporal 1 ex_nonzero_inds ex_starts /\
  exists banded,
    build_banded_2 ex_base ex_temporal 1 ex_nonzero_inds ex_starts = Done banded /\
    wf banded /\
    shape0 banded = (1 + 1) * shape0 ex_base + 1 /\
    shape1 banded = shape0 ex_temporal * shape0 ex_base /\
    forall row col,
      0 <= row -> row <= col -> col < shape0 ex_temporal * shape0 ex_base ->
      col - row < (1 + 1) * shape0 ex_base + 1 ->
      Z.abs (col / shape0 ex_base - row / shape0 ex_base) <= 1 ->
      exists sl,
        group_slice ex_nonzero_inds ex_starts
          (col / shape0 ex_base * shape0 ex_temporal + row / shape0 ex_base)
          = Done sl /\
        mget banded ((1 + 1) * shape0 ex_base + 1 - 1 - (col - row)) col =
        Done (sum_over sl (fun o =>
                mval ex_temporal (col / shape0 ex_base) o
                * mval ex_base (col mod shape0 ex_base) o
                * mval ex_temporal (row / shape0 ex_base) o
                * mval ex_base (row mod shape0 ex_base) o)%R).
Proof.
  split; [int_range_tac|].
  split; [int_range_tac|].
  assert (G : grouping_readable ex_base ex_temporal 1 ex_nonzero_inds ex_starts).
  { apply grouping_exact_readable; [reflexivity|exact ex_grouping_exact]. }
  split; [exact ex_base_wf|]. split; [exact ex_temporal_wf|].
  split; [lia|]. split; [exact G|].
  apply (build_banded_2_entries ex_base ex_temporal 1 ex_nonzero_inds ex_starts);
    [int_range_tac|int_range_tac|exact ex_base_wf|exact ex_temporal_wf|lia|exact G].
Defined.

Lemma grouping_covering_readable base_DIF temporal p nonzero_inds starts :
  shape1 base_DIF <= shape1 temporal ->
  grouping_covering base_DIF temporal p nonzero_inds starts ->
  grouping_readable base_DIF temporal p nonzero_inds starts.
Proof.
  intros Hcols Hcov it_t jt_t H0 H1 H2 H3.
  destruct (Hcov it_t jt_t H0 H1 H2 H3) as (sl & Hsl & _ & Hin & _).
  exists sl. split; [exact Hsl|]. intros o Ho. apply Hin in Ho. lia.
Qed.

Lemma indexed_sum_covering base_DIF temporal p nonzero_inds starts
    it_t it_s jt_t jt_s :
  grouping_covering base_DIF temporal p nonzero_inds starts ->
  0 <= jt_t -> jt_t <= it_t -> it_t < shape0 temporal -> it_t - jt_t <= p ->
  indexed_sum base_DIF temporal nonzero_inds starts it_t it_s jt_t jt_s =
  dense_sum base_DIF temporal it_t it_s jt_t jt_s.
Proof.
  intros Hcov H0 H1 H2 H3.
  destruct (Hcov it_t jt_t H0 H1 H2 H3) as (sl & Hsl & Nsl & Hin & Hall).
  unfold indexed_sum, slice_or_nil, dense_sum, observations. rewrite Hsl.
  apply sum_over_support; auto using NoDup_seqZ.
  - intros o Ho. apply Hin in Ho. apply elem_of_seqZ. lia.
  - intros o Ho Hnot. apply elem_of_seqZ in Ho. unfold term.
    destruct (Req_dec (mval temporal it_t o) 0) as [E|E]; [rewrite E; lra|].
    destruct (Req_dec (mval temporal jt_t o) 0) as [E'|E']; [rewrite E'; lra|].
    exfalso. apply Hnot, Hall; auto; lia.
Qed.

(** X9: [build_banded_2] returns the matrix of [build_banded] as soon as the
    grouping covers the nonzero products of the block pairs that are
    visited ([0 <= jt_t <= it_t < n_t], at most [p] apart): listing further
    observations, listing them in another order, and whatever the other
    groups hold, make no difference.  The integers computed from [p], the
    shapes and the offsets are taken to fit a C [int]. *)
Theorem covering_grouping_suffices base_DIF temporal p nonzero_inds starts :
  band_ints_in_range base_DIF temporal p ->
  grouping_ints_in_range temporal starts ->
  wf base_DIF -> wf temporal ->
  shape1 temporal = shape1 base_DIF ->
  0 <= p ->
  grouping_covering base_DIF temporal p nonzero_inds starts ->
  exists banded,
    build_banded base_DIF temporal p = Done banded /\
    build_banded_2 base_DIF temporal p nonzero_inds starts = Done banded.
Proof.
  intros _ _ Wb Wt Hcols Hp Hcov.
  pose proof (wf_shape_nonneg _ Wb) as Hn.
  destruct (build_banded_cells base_DIF temporal p Wb Wt ltac:(lia) ltac:(nia))
    as (m1 & E1 & W1 & S10 & S11 & C1).
  destruct (build_banded_2_cells base_DIF temporal p nonzero_inds starts
              Wb Wt ltac:(nia))
    as (m2 & E2 & W2 & S20 & S21 & C2).
  { apply grouping_covering_readable; [lia|exact Hcov]. }
  exists m1. split; [exact E1|]. rewrite E2. f_equal.
  apply ndarray_ext; auto; try congruence.
  intros i j Hi Hj. rewrite C2, C1 by lia.
  apply (cell_value_ext (shape0 temporal)); auto; try lia.
  intros. apply (indexed_sum_covering base_DIF temporal p); auto.
Qed.

Lemma ex_grouping_wide_covering :
  grouping_covering ex_base ex_temporal 1 ex_nonzero_inds_wide ex_starts_wide.
Proof.
  intros it_t jt_t H0 H1 H2 H3. change (shape0 ex_temporal) with 2 in *.
  change (shape1 ex_base) with 2.
  assert (Hc : (it_t = 0 /\ jt_t = 0) \/ (it_t = 1 /\ jt_t = 0) \/
               (it_t = 1 /\ jt_t = 1)) by lia.
  destruct Hc as [[-> ->]|[[-> ->]|[-> ->]]];
    (eexists; split; [vm_compute; reflexivity|]; split; [compute_done|]);
    (split; intros o; rewrite !elem_of_cons, elem_of_nil; lia).
Qed.

Lemma covering_grouping_suffices_witness :
  band_ints_in_range ex_base ex_temporal 1 /\
  grouping_ints_in_range ex_temporal ex_starts_wide /\
  wf ex_base /\ wf ex_temporal /\ shape1 ex_temporal = shape1 ex_base /\
  0 <= 1 /\
  grouping_covering ex_base ex_temporal 1 ex_nonzero_inds_wide ex_starts_wide /\
  exists banded,
    build_banded ex_base ex_temporal 1 = Done banded /\
    build_banded_2 ex_base ex_temporal 1 ex_nonzero_inds_wide ex_starts_wide
      = Done banded.
Proof.
  split; [int_range_tac|].
  split; [int_range_tac|].
  split; [exact ex_base_wf|]. split; [exact ex_temporal_wf|].
  split; [reflexivity|]. split; [lia|].
  split; [exact ex_grouping_wide_covering|].
  apply (covering_grouping_suffices ex_base ex_temporal 1
           ex_nonzero_inds_wide ex_starts_wide);
    [int_range_tac|int_range_tac|exact ex_base_wf|exact ex_temporal_wf|reflexivity|lia
    |exact ex_grouping_wide_covering].
Defined.

Lemma vget_out l i :
  i < 0 \/ Z.of_nat (length l) <= i -> vget l i = Fault OutOfBounds.
Proof.
  intros H. unfold vget. destruct (Z.leb_spec 0 i); [|reflexivity].
  rewrite (proj2 (lookup_ge_None l (Z.to_nat i))) by lia. reflexivity.
Qed.

Lemma last_block n_t n_coeffs :
  0 < n_t -> 0 < n_coeffs ->
  Z.quot (n_t * n_coeffs - 1) n_coeffs = n_t - 1.
Proof.
  intros Ht Hn. rewrite Z.quot_div_nonneg by nia.
  replace (n_t * n_coeffs - 1) with ((n_t - 1) * n_coeffs + (n_coeffs - 1)) by lia.
  rewrite Z.div_add_l by lia. rewrite Z.div_small by lia. lia.
Qed.

Lemma mget_not_value_error m i j : mget m i j <> Fault ValueError.
Proof.
  unfold mget. destruct (in_shape m i j); [|discriminate].
  destruct (data m !! Z.to_nat i) as [r|]; [|discriminate].
  destruct (r !! Z.to_nat j); discriminate.
Qed.

Lemma vget_not_value_error l i : vget l i <> Fault ValueError.
Proof.
  unfold vget. destruct (0 <=? i); [|discriminate].
  destruct (l !! Z.to_nat i); discriminate.
Qed.

Lemma madd_at_not_value_error m k c v : madd_at m k c v <> Fault ValueError.
Proof.
  unfold madd_at. destruct (mget m k c) as [x|e] eqn:E; simpl; [discriminate|].
  intros [= ->]. exact (mget_not_value_error _ _ _ E).
Qed.

Lemma bind_not_value_error {A B : Type} (o : outcome A) (f : A -> outcome B) :
  o <> Fault ValueError -> (forall a, f a <> Fault ValueError) ->
  (o ≫= f) <> Fault ValueError.
Proof.
  intros Ho Hf. destruct o as [a|e]; simpl; [apply Hf|].
  intros [= ->]. apply Ho. reflexivity.
Qed.

(** Inside the loops only an access outside an array can go wrong. *)
Lemma for_range_not_value_error {S : Type} lo hi (s : S) body :
  (forall i t, body i t <> Fault ValueError) ->
  for_range lo hi s body <> Fault ValueError.
Proof.
  intros Hb. unfold for_range. generalize (seqZ lo (hi - lo)). intros l.
  revert s. induction l as [|a l IH]; intros s; simpl; [discriminate|].
  apply bind_not_value_error; auto.
Qed.

Lemma fault_is_out_of_bounds {A : Type} (o : outcome A) :
  (forall a, o <> Done a) -> o <> Fault ValueError -> o = Fault OutOfBounds.
Proof.
  intros Hd Hv. destruct o as [a|[|]]; [destruct (Hd a eq_refl)|congruence|reflexivity].
Qed.

(** X10: the offsets array is read up to index [n_t*n_t] (the end of the
    slice of the last diagonal block) without any length check: when it has
    fewer than [n_t*n_t + 1] entries and the band has at least one cell,
    [build_banded_2] performs an access outside an array, at the latest the
    read of [starts] for the last diagonal block. *)
Theorem short_offsets_out_of_bounds base_DIF temporal p nonzero_inds starts :
  band_ints_in_range base_DIF temporal p ->
  grouping_ints_in_range temporal starts ->
  wf base_DIF -> wf temporal ->
  0 < shape0 temporal -> 0 < shape0 base_DIF ->
  0 <= p ->
  Z.of_nat (length starts) < shape0 temporal * shape0 temporal + 1 ->
  build_banded_2 base_DIF temporal p nonzero_inds starts = Fault OutOfBounds.
Proof.
  intros _ _ Wb Wt Hnt Hn Hp Hshort. unfold build_banded_2. cbv zeta.
  destruct (np_zeros_spec ((p + 1) * shape0 base_DIF + 1)
              (shape0 temporal * shape0 base_DIF) ltac:(nia) ltac:(nia))
    as (z & -> & _). simpl.
  apply fault_is_out_of_bounds.
  - intros m Hrun.
    eapply for_range_done_iteration with (i := 0) in Hrun; [|nia].
    destruct Hrun as (t & t' & Hrow).
    eapply for_range_done_iteration
      with (i := shape0 temporal * shape0 base_DIF - 1) in Hrow; [|nia].
    destruct Hrow as (u & u' & Hcell).
    cbv zeta in Hcell.
    replace (0 + (shape0 temporal * shape0 base_DIF - 1))
      with (shape0 temporal * shape0 base_DIF - 1) in Hcell by lia.
    rewrite last_block in Hcell by lia.
    destruct (Z.ltb_spec p (Z.abs (shape0 temporal - 1 - (shape0 temporal - 1))));
      [lia|].
    destruct (vget starts ((shape0 temporal - 1) * shape0 temporal
                           + (shape0 temporal - 1))) as [lo|e];
      simpl in Hcell; [|discriminate].
    rewrite (vget_out starts) in Hcell by nia. discriminate.
  - apply for_range_not_value_error. intros it t.
    apply for_range_not_value_error. intros jt u. cbv zeta.
    destruct (p <? _); [discriminate|].
    apply bind_not_value_error; [apply vget_not_value_error|intros lo].
    apply bind_not_value_error; [apply vget_not_value_error|intros hi].
    apply for_range_not_value_error. intros kt w.
    apply bind_not_value_error; [apply vget_not_value_error|intros o].
    do 4 (apply bind_not_value_error; [apply mget_not_value_error|intros ?]).
    apply madd_at_not_value_error.
Qed.

Lemma short_offsets_out_of_bounds_witness :
  band_ints_in_range ex_base ex_temporal 1 /\
  grouping_ints_in_range ex_temporal [0; 1; 2; 3] /\
  wf ex_base /\ wf ex_temporal /\
  0 < shape0 ex_temporal /\ 0 < shape0 ex_base /\ 0 <= 1 /\
  Z.of_nat (length [0; 1; 2; 3]) < shape0 ex_temporal * shape0 ex_temporal + 1 /\
  build_banded_2 ex_base ex_temporal 1 ex_nonzero_inds [0; 1; 2; 3]
    = Fault OutOfBounds.
Proof.
  split; [int_range_tac|]. split; [int_range_tac|].
  split; [exact ex_base_wf|]. split; [exact ex_temporal_wf|].
  split; [reflexivity|]. split; [reflexivity|]. split; [lia|].
  split; [reflexivity|].
  apply (short_offsets_out_of_bounds ex_base ex_temporal 1 ex_nonzero_inds
           [0; 1; 2; 3]);
    [int_range_tac|int_range_tac|exact ex_base_wf|exact ex_temporal_wf
    |reflexivity|reflexivity|lia|reflexivity].
Defined.

(** ** The local-window kernel in general *)



Lemma local_window_faults_left_of_range_witness :
  degree_ints_in_range lw_base1 lw_temporal_left 3 /\
  window_ints_in_range [2] lw_base1 lw_temporal_left 3 /\
  wf lw_base1 /\ wf lw_temporal_left /\
  0 < shape0 lw_base1 /\ 0 < shape1 lw_base1 /\ 0 <= 3 /\ 2 - 3 < 0 /\
  build_banded_3 [2] lw_base1 lw_temporal_left 3 = Fault OutOfBounds.
Proof.
  assert (Hw : window_ints_in_range [2] lw_base1 lw_temporal_left 3).
  { intros it Hit _. change (shape1 lw_base1) with 1 in Hit.
    assert (it = 0) as -> by lia. window_leaf_tac. }
  split; [int_range_tac|].
  split; [exact Hw|].
  assert (Wb : wf lw_base1) by (split; [reflexivity|repeat constructor]).
  assert (Wt : wf lw_temporal_left) by (split; [reflexivity|repeat constructor]).
  split; [exact Wb|]. split; [exact Wt|].
  split; [reflexivity|]. split; [reflexivity|]. split; [lia|]. split; [lia|].
  apply (local_window_faults_left_of_range 2 [] lw_base1 lw_temporal_left 3);
    [int_range_tac|exact Hw|exact Wb|exact Wt|reflexivity|reflexivity|lia|lia].
Defined.

(** X15: a window that lies entirely at or beyond [n_t] is skipped as a
    whole: when that is so for every observation, [build_banded_3] reads no
    basis value and returns the all-zero band, for every degree and every
    number of spatial coefficients whose integers (the bandwidth, the column
    count, the window bounds) fit a C [int]. *)
Theorem windows_right_of_range_zero_band nlefts base_DIF temporal deg :
  degree_ints_in_range base_DIF temporal deg ->
  window_ints_in_range nlefts base_DIF temporal deg ->
  wf base_DIF -> wf temporal ->
  0 <= (deg + 1) * shape0 base_DIF ->
  shape1 base_DIF <= Z.of_nat (length nlefts) ->
  (forall it, 0 <= it < shape1 base_DIF ->
              shape0 temporal <= nleft_at nlefts it - deg) ->
  build_banded_3 nlefts base_DIF temporal deg =
  np_zeros ((deg + 1) * shape0 base_DIF) (shape0 temporal * shape0 base_DIF).
Proof.
  intros _ _ Wb Wt Hbw Hlen Hright. unfold build_banded_3. cbv zeta.
  pose proof (wf_shape_nonneg _ Wb). pose proof (wf_shape_nonneg _ Wt).
  destruct (np_zeros_spec ((deg + 1) * shape0 base_DIF)
              (shape0 temporal * shape0 base_DIF) Hbw ltac:(nia))
    as (z & -> & _). simpl.
  destruct (Z.le_gt_cases (shape1 base_DIF) 0) as [Hemp|Hpos].
  { rewrite for_range_empty by lia. reflexivity. }
  match goal with |- for_range 0 _ z ?body = _ =>
    destruct (for_range_inv (fun _ m => m = z) 0 (shape1 base_DIF) z body)
      as (m & -> & ->); [lia|reflexivity| |reflexivity]
  end.
  intros it t Hit ->. exists z. split; [|reflexivity].
  rewrite vget_nleft_at by lia. simpl.
  specialize (Hright it Hit).
  destruct (Z.le_gt_cases (nleft_at nlefts it + 1) (nleft_at nlefts it - deg))
    as [Hnone|Hsome].
  { apply for_range_empty. lia. }
  match goal with |- for_range _ _ z ?body = _ =>
    destruct (for_range_inv (fun _ m => m = z) (nleft_at nlefts it - deg)
                (nleft_at nlefts it + 1) z body)
      as (m & -> & ->); [lia|reflexivity| |reflexivity]
  end.
  intros p t Hp ->. exists z. split; [|reflexivity].
  destruct (Z.leb_spec (shape0 temporal) p); [reflexivity|lia].
Qed.

Lemma windows_right_of_range_zero_band_witness :
  degree_ints_in_range lw_base2 lw_temporal4 3 /\
  window_ints_in_range [7] lw_base2 lw_temporal4 3 /\
  wf lw_base2 /\ wf lw_temporal4 /\
  0 <= (3 + 1) * shape0 lw_base2 /\
  shape1 lw_base2 <= Z.of_nat (length [7]) /\
  (forall it, 0 <= it < shape1 lw_base2 ->
              shape0 lw_temporal4 <= nleft_at [7] it - 3) /\
  build_banded_3 [7] lw_base2 lw_temporal4 3 =
  np_zeros ((3 + 1) * shape0 lw_base2) (shape0 lw_temporal4 * shape0 lw_base2).
Proof.
  assert (Wb : wf lw_base2) by (split; [reflexivity|repeat constructor]).
  assert (Wt : wf lw_temporal4) by (split; [reflexivity|repeat constructor]).
  assert (Hr : forall it, 0 <= it < shape1 lw_base2 ->
                          shape0 lw_temporal4 <= nleft_at [7] it - 3).
  { intros it Hit. change (shape1 lw_base2) with 1 in Hit.
    assert (it = 0) as -> by lia. vm_compute. discriminate. }
  assert (Hw : window_ints_in_range [7] lw_base2 lw_temporal4 3).
  { intros it Hit _. change (shape1 lw_base2) with 1 in Hit.
    assert (it = 0) as -> by lia. window_leaf_tac. }
  split; [int_range_tac|]. split; [exact Hw|].
  split; [exact Wb|]. split; [exact Wt|]. split; [simpl; lia|].
  split; [simpl; lia|]. split; [exact Hr|].
  apply (windows_right_of_range_zero_band [7] lw_base2 lw_temporal4 3);
    [int_range_tac|exact Hw|exact Wb|exact Wt|simpl; lia|simpl; lia|exact Hr].
Defined.

Lemma np_zeros_done r c z :
  np_zeros r c = Done z -> wf z /\ shape0 z = r /\ shape1 z = c.
Proof.
  unfold np_zeros.
  destruct (Z.ltb_spec r 0); [discriminate|].
  destruct (Z.ltb_spec c 0); [discriminate|]. simpl. intros E.
  destruct (np_zeros_spec r c ltac:(lia) ltac:(lia)) as (z' & E' & W & S0 & S1 & _).
  unfold np_zeros in E'.
  destruct (Z.ltb_spec r 0); [lia|]. destruct (Z.ltb_spec c 0); [lia|].
  simpl in E'. rewrite E in E'. injection E' as <-. auto.
Qed.

Lemma madd_at_done_frame m k c v m' :
  wf m -> madd_at m k c v = Done m' -> same_frame m m'.
Proof.
  intros Wm. unfold madd_at. destruct (mget m k c) as [x|e]; simpl; [|discriminate].
  intros [= <-]. apply mset_frame. exact Wm.
Qed.

(** X16: as long as the C integers do not overflow and no access leaves an
    array, the matrix that [build_banded_3] returns is a consistent view of
    shape [((deg+1)*n_coeffs) x (n_t*n_coeffs)]: the accumulations never
    change the frame allocated at the start. *)
Theorem build_banded_3_result_shape nlefts base_DIF temporal deg m :
  degree_ints_in_range base_DIF temporal deg ->
  window_ints_in_range nlefts base_DIF temporal deg ->
  build_banded_3 nlefts base_DIF temporal deg = Done m ->
  wf m /\
  shape0 m = (deg + 1) * shape0 base_DIF /\
  shape1 m = shape0 temporal * shape0 base_DIF.
Proof.
  intros _ _. unfold build_banded_3. cbv zeta.
  destruct (np_zeros ((deg + 1) * shape0 base_DIF)
              (shape0 temporal * shape0 base_DIF)) as [z|e] eqn:Ez; simpl;
    [|discriminate].
  destruct (np_zeros_done _ _ _ Ez) as (Wz & Z0 & Z1). intros Hrun.
  assert (F : same_frame z m).
  { revert Hrun. apply for_range_done; [apply same_frame_refl; exact Wz|].
    intros it t t' _ Ft.
    destruct (vget nlefts it) as [nl|]; simpl; [|discriminate].
    apply for_range_done; [exact Ft|].
    intros p u u' _ Fu.
    destruct (shape0 temporal <=? p); [intros [= <-]; exact Fu|].
    apply for_range_done; [exact Fu|].
    intros q w w' _ Fw.
    destruct (shape0 temporal <=? q); [intros [= <-]; exact Fw|].
    apply for_range_done; [exact Fw|].
    intros j x x' _ Fx.
    apply for_range_done; [exact Fx|].
    intros i y y' _ Fy.
    destruct (mget temporal p it); simpl; [|discriminate].
    destruct (mget temporal q it); simpl; [|discriminate].
    destruct (mget base_DIF i it); simpl; [|discriminate].
    destruct (mget base_DIF j it); simpl; [|discriminate].
    intros Hadd. eapply same_frame_trans; [exact Fy|].
    eapply madd_at_done_frame; [|exact Hadd]. apply Fy. }
  destruct F as (W & S0 & S1). split; [exact W|]. split; congruence.
Qed.

Lemma lw_cubic_window_ints : window_ints_in_range [3; 4] lw_base_cubic lw_temporal_cubic 3.
Proof.
  intros it Hit _. change (shape1 lw_base_cubic) with 2 in Hit.
  assert (Hc : it = 0 \/ it = 1) by lia.
  destruct Hc as [-> | ->]; window_leaf_tac.
Qed.

Lemma build_banded_3_result_shape_witness :
  degree_ints_in_range lw_base_cubic lw_temporal_cubic 3 /\
  window_ints_in_range [3; 4] lw_base_cubic lw_temporal_cubic 3 /\
  exists m,
    build_banded_3 [3; 4] lw_base_cubic lw_temporal_cubic 3 = Done m /\
    wf m /\
    shape0 m = (3 + 1) * shape0 lw_base_cubic /\
    shape1 m = shape0 lw_temporal_cubic * shape0 lw_base_cubic.
Proof.
  split; [int_range_tac|]. split; [exact lw_cubic_window_ints|].
  eexists. split; [vm_compute; reflexivity|].
  apply (build_banded_3_result_shape [3; 4] lw_base_cubic lw_temporal_cubic 3);
    [int_range_tac|exact lw_cubic_window_ints|vm_compute; reflexivity].
Defined.

(** X17: [nlefts] is read once per observation without any length check:
    when it has fewer than [n_data] entries (and the allocation succeeds),
    [build_banded_3] performs an access outside an array, at the latest the
    read of [nlefts] just past its end. *)
Theorem short_nlefts_out_of_bounds nlefts base_DIF temporal deg :
  degree_ints_in_range base_DIF temporal deg ->
  window_ints_in_range nlefts base_DIF temporal deg ->
  wf base_DIF -> wf temporal ->
  0 <= (deg + 1) * shape0 base_DIF ->
  Z.of_nat (length nlefts) < shape1 base_DIF ->
  build_banded_3 nlefts base_DIF temporal deg = Fault OutOfBounds.
Proof.
  intros _ _ Wb Wt Hbw Hshort. unfold build_banded_3. cbv zeta.
  pose proof (wf_shape_nonneg _ Wb). pose proof (wf_shape_nonneg _ Wt).
  destruct (np_zeros_spec ((deg + 1) * shape0 base_DIF)
              (shape0 temporal * shape0 base_DIF) Hbw ltac:(nia))
    as (z & -> & _). simpl.
  apply fault_is_out_of_bounds.
  - intros m Hrun.
    eapply for_range_done_iteration
      with (i := Z.of_nat (length nlefts)) in Hrun; [|lia].
    destruct Hrun as (t & t' & Hit).
    rewrite (vget_out nlefts) in Hit by lia. discriminate.
  - apply for_range_not_value_error. intros it t.
    apply bind_not_value_error; [apply vget_not_value_error|intros lo].
    apply bind_not_value_error; [apply vget_not_value_error|intros hi].
    apply for_range_not_value_error. intros p u.
    destruct (shape0 temporal <=? p); [discriminate|].
    apply bind_not_value_error; [apply vget_not_value_error|intros hi'].
    apply for_range_not_value_error. intros q w.
    destruct (shape0 temporal <=? q); [discriminate|].
    apply for_range_not_value_error. intros j x.
    apply for_range_not_value_error. intros i y.
    do 4 (apply bind_not_value_error; [apply mget_not_value_error|intros ?]).
    apply madd_at_not_value_error.
Qed.

Lemma short_nlefts_out_of_bounds_witness :
  degree_ints_in_range lw_base_cubic lw_temporal_cubic 3 /\
  window_ints_in_range [3] lw_base_cubic lw_temporal_cubic 3 /\
  wf lw_base_cubic /\ wf lw_temporal_cubic /\
  0 <= (3 + 1) * shape0 lw_base_cubic /\
  Z.of_nat (length [3]) < shape1 lw_base_cubic /\
  build_banded_3 [3] lw_base_cubic lw_temporal_cubic 3 = Fault OutOfBounds.
Proof.
  assert (Wb : wf lw_base_cubic) by (split; [reflexivity|repeat constructor]).
  assert (Wt : wf lw_temporal_cubic) by (split; [reflexivity|repeat constructor]).
  assert (Hw : window_ints_in_range [3] lw_base_cubic lw_temporal_cubic 3).
  { intros it Hit _. change (shape1 lw_base_cubic) with 2 in Hit.
    assert (Hc : it = 0 \/ it = 1) by lia.
    destruct Hc as [-> | ->]; window_leaf_tac. }
  split; [int_range_tac|]. split; [exact Hw|].
  split; [exact Wb|]. split; [exact Wt|]. split; [simpl; lia|].
  split; [reflexivity|].
  apply (short_nlefts_out_of_bounds [3] lw_base_cubic lw_temporal_cubic 3);
    [int_range_tac|exact Hw|exact Wb|exact Wt|simpl; lia|reflexivity].
Defined.



(** ** The band is wide enough, and grows with [p] without changing *)

Lemma within_blocks_within_band n_coeffs p row col :
  0 < n_coeffs -> 0 <= row -> row <= col ->
  Z.abs (col / n_coeffs - row / n_coeffs) <= p ->
  col - row < (p + 1) * n_coeffs + 1.
Proof.
  intros Hn H0 H1 Hd.
  pose proof (Z.div_mod col n_coeffs ltac:(lia)) as Ec.
  pose proof (Z.div_mod row n_coeffs ltac:(lia)) as Er.
  pose proof (Z.mod_pos_bound col n_coeffs Hn).
  pose proof (Z.mod_pos_bound row n_coeffs Hn).
  assert (col / n_coeffs - row / n_coeffs <= p) by lia.
  nia.
Qed.

(** X19: every entry [(row, col)], [row <= col], whose blocks are at most
    [p] apart has a cell in the band of [build_banded], and a larger band
    parameter [p' >= p] keeps its value, stored [ (p' - p) * n_coeffs ] rows
    further down, as long as for both parameters the integers computed from
    them and the shapes fit a C [int]. *)
Theorem band_parameter_monotone base_DIF temporal p p' :
  band_ints_in_range base_DIF temporal p ->
  band_ints_in_range base_DIF temporal p' ->
  wf base_DIF -> wf temporal ->
  shape1 temporal = shape1 base_DIF ->
  0 <= p -> p <= p' ->
  exists b b',
    build_banded base_DIF temporal p = Done b /\
    build_banded base_DIF temporal p' = Done b' /\
    forall row col,
      0 <= row -> row <= col -> col < shape0 temporal * shape0 base_DIF ->
      Z.abs (col / shape0 base_DIF - row / shape0 base_DIF) <= p ->
      0 <= (p + 1) * shape0 base_DIF + 1 - 1 - (col - row) /\
      exists x,
        mget b ((p + 1) * shape0 base_DIF + 1 - 1 - (col - row)) col = Done x /\
        mget b' ((p' + 1) * shape0 base_DIF + 1 - 1 - (col - row)) col = Done x.
Proof.
  intros _ _ Wb Wt Hcols Hp Hpp.
  pose proof (wf_shape_nonneg _ Wb) as Hn.
  destruct (build_banded_cells base_DIF temporal p Wb Wt ltac:(lia) ltac:(nia))
    as (m & E & W & S0 & S1 & Hc).
  destruct (build_banded_cells base_DIF temporal p' Wb Wt ltac:(lia) ltac:(nia))
    as (m' & E' & W' & S0' & S1' & Hc').
  exists m, m'. split; [exact E|]. split; [exact E'|].
  intros row col H0 H1 H2 Hd.
  destruct (block_range (shape0 temporal) (shape0 base_DIF) row col)
    as (Hpos & _); auto.
  pose proof (within_blocks_within_band _ _ _ _ Hpos H0 H1 Hd) as Hin.
  split; [lia|]. eexists. split; [apply mget_wf; auto; lia|].
  rewrite mget_wf by (auto; nia). f_equal.
  rewrite Hc, Hc' by nia. rewrite !cell_value_entry by lia.
  rewrite !entry_value_in by lia. reflexivity.
Qed.

Lemma band_parameter_monotone_witness :
  band_ints_in_range ex_base ex_temporal 0 /\
  band_ints_in_range ex_base ex_temporal 1 /\
  wf ex_base /\ wf ex_temporal /\ shape1 ex_temporal = shape1 ex_base /\
  0 <= 0 /\ 0 <= 1 /\
  exists b b',
    build_banded ex_base ex_temporal 0 = Done b /\
    build_banded ex_base ex_temporal 1 = Done b' /\
    forall row col,
      0 <= row -> row <= col -> col < shape0 ex_temporal * shape0 ex_base ->
      Z.abs (col / shape0 ex_base - row / shape0 ex_base) <= 0 ->
      0 <= (0 + 1) * shape0 ex_base + 1 - 1 - (col - row) /\
      exists x,
        mget b ((0 + 1) * shape0 ex_base + 1 - 1 - (col - row)) col = Done x /\
        mget b' ((1 + 1) * shape0 ex_base + 1 - 1 - (col - row)) col = Done x.
Proof.
  split; [int_range_tac|].
  split; [int_range_tac|].
  split; [exact ex_base_wf|]. split; [exact ex_temporal_wf|].
  split; [reflexivity|]. split; [lia|]. split; [lia|].
  apply (band_parameter_monotone ex_base ex_temporal 0 1);
    [int_range_tac|int_range_tac|exact ex_base_wf|exact ex_temporal_wf|reflexivity|lia|lia].
Defined.
